(** * telegram-files-downloader: a shallow embedding of [main.go]

    The bot receives attachments, stores them below a working directory and
    answers a handful of text commands ([/cd], [/pwd], [/ls], [/stats]).
    The embedding follows the first program of [main.go] (the one that
    starts in its own working directory and offers [/cd] and [/ls]).

    Layout of the development:
    - [strings], [utf8], [fmt], [filepath]: the few functions of Go's
      standard library that the program calls, on byte strings;
    - [os]: a model of the part of the file system the program touches
      (directories with a search bit, regular files, a working directory);
      there are no symbolic links and no write permissions in the model;
    - the program itself: [Cfg], [Stats], the handlers and the download
      goroutine, first as sequential functions in a small state monad and
      then as a step machine whose steps are the goroutines' accesses to
      shared state;
    - the theorems. *)

From Stdlib Require Import ZArith String Ascii List Bool Lia.
From Stdlib Require Import DecimalString DecimalZ DecimalPos.
Import ListNotations.
Open Scope string_scope.
Open Scope Z_scope.

(** ** Go's standard library, as far as the program uses it *)

(** [len(s)] of a Go string is its number of bytes. *)
Definition len (s : string) : Z := Z.of_nat (String.length s).

Module strings.

(** [strings.HasPrefix(s, prefix)]. *)
Definition HasPrefix (s pre : string) : bool := String.prefix pre s.

(** [strings.Split(s, "/")]: the pieces between the slashes; never empty. *)
Fixpoint SplitSlash (s : string) : list string :=
  match s with
  | EmptyString => [EmptyString]
  | String c s' =>
      if Ascii.eqb c "/" then EmptyString :: SplitSlash s'
      else match SplitSlash s' with
           | [] => [String c EmptyString]
           | x :: xs => String c x :: xs
           end
  end.

(** [strings.Join(elems, "/")]. *)
Definition JoinSlash (elems : list string) : string := String.concat "/" elems.

(** [strings.Repeat(" ", n)]. *)
Fixpoint spaces (n : nat) : string :=
  match n with
  | O => EmptyString
  | S k => String " " (spaces k)
  end.

End strings.

Module utf8.

Definition byte (c : ascii) : Z := Z.of_nat (nat_of_ascii c).

Definition between (lo hi : Z) (c : ascii) : bool :=
  (lo <=? byte c) && (byte c <=? hi).

(** Width announced by a leading byte and the range its second byte must
    lie in (the tables [first] and [acceptRanges] of [unicode/utf8]);
    [None] for a byte that cannot start an encoding. *)
Definition lead (c : ascii) : option (nat * (Z * Z)) :=
  let b := byte c in
  if b <? 128 then None
  else if between 194 223 c then Some (2%nat, (128, 191))
  else if b =? 224 then Some (3%nat, (160, 191))
  else if between 225 236 c then Some (3%nat, (128, 191))
  else if b =? 237 then Some (3%nat, (128, 159))
  else if between 238 239 c then Some (3%nat, (128, 191))
  else if b =? 240 then Some (4%nat, (144, 191))
  else if between 241 243 c then Some (4%nat, (128, 191))
  else if b =? 244 then Some (4%nat, (128, 143))
  else None.

Fixpoint continuation (n : nat) (s : string) : bool :=
  match n with
  | O => true
  | S k => match s with
           | EmptyString => false
           | String c s' => between 128 191 c && continuation k s'
           end
  end.

(** Number of bytes of the rune that starts with [c] and goes on with
    [rest]; a malformed or truncated encoding counts as one byte. *)
Definition runeWidth (c : ascii) (rest : string) : nat :=
  match lead c with
  | None => 1%nat
  | Some (size, (lo, hi)) =>
      match rest with
      | EmptyString => 1%nat
      | String c1 rest' =>
          if (Nat.ltb (String.length rest) (size - 1))%nat then 1%nat
          else if negb (between lo hi c1) then 1%nat
          else if continuation (size - 2) rest' then size
          else 1%nat
      end
  end.

(** [skip] bytes of the current rune are still to be passed over. *)
Fixpoint countFrom (skip : nat) (s : string) : nat :=
  match s with
  | EmptyString => O
  | String c rest =>
      match skip with
      | S k => countFrom k rest
      | O => S (countFrom (runeWidth c rest - 1) rest)
      end
  end.

(** [utf8.RuneCountInString(s)]. *)
Definition RuneCountInString (s : string) : nat := countFrom 0 s.

End utf8.

Module fmt.

(** The verb [%d] on a signed integer. *)
Definition d (z : Z) : string := NilZero.string_of_int (Z.to_int z).

(** The verb [%c] on a rune below 128. *)
Definition c (r : ascii) : string := String r EmptyString.

(** The verb [%-50s]: left-justified, padded with spaces on the right up
    to a width counted in runes. *)
Definition s_left (width : nat) (s : string) : string :=
  s ++ strings.spaces (width - utf8.RuneCountInString s).

End fmt.

Module filepath.

(** [filepath.IsAbs] on Unix. *)
Definition IsAbs (p : string) : bool := strings.HasPrefix p "/".

Definition isDot (e : string) : bool := String.eqb e "" || String.eqb e ".".
Definition isDotDot (e : string) : bool := String.eqb e "..".

(** The element pass of [filepath.Clean]: empty and [.] elements go, an
    inner [..] takes the element before it along, a [..] at the start of
    a rooted path goes and one at the start of a relative path stays. *)
Fixpoint cleanElems (rooted : bool) (out : list string) (es : list string)
  : list string :=
  match es with
  | [] => out
  | e :: es' =>
      if isDot e then cleanElems rooted out es'
      else if isDotDot e then
        match out with
        | [] => if rooted then cleanElems rooted [] es'
                else cleanElems rooted [e] es'
        | _ => if isDotDot (last out "") then cleanElems rooted (out ++ [e]) es'
               else cleanElems rooted (removelast out) es'
        end
      else cleanElems rooted (out ++ [e]) es'
  end.

(** [filepath.Clean(p)]. *)
Definition Clean (p : string) : string :=
  if String.eqb p "" then "."
  else
    let es := cleanElems (IsAbs p) [] (strings.SplitSlash p) in
    if IsAbs p then "/" ++ strings.JoinSlash es
    else match es with
         | [] => "."
         | _ => strings.JoinSlash es
         end.

(** [filepath.Join(a, b)]: the first non-empty element onwards, joined
    with slashes and cleaned; the empty string if both are empty. *)
Definition Join (a b : string) : string :=
  if negb (String.eqb a "") then Clean (a ++ "/" ++ b)
  else if negb (String.eqb b "") then Clean b
  else "".

End filepath.

(** ** Errors *)

Inductive errno := ENOENT | ENOTDIR | EISDIR | EACCES | EINVAL.

(** Go's [error] values that occur: [errors.New], [*fs.PathError] and
    [*os.LinkError]. *)
Inductive error :=
| errorString (msg : string)
| PathError (op path : string) (e : errno)
| LinkError (op old new : string) (e : errno).

Definition errnoText (e : errno) : string :=
  match e with
  | ENOENT => "no such file or directory"
  | ENOTDIR => "not a directory"
  | EISDIR => "is a directory"
  | EACCES => "permission denied"
  | EINVAL => "invalid argument"
  end.

(** [err.Error()]. *)
Definition Error (e : error) : string :=
  match e with
  | errorString msg => msg
  | PathError op path e => op ++ " " ++ path ++ ": " ++ errnoText e
  | LinkError op old new e => op ++ " " ++ old ++ " " ++ new ++ ": " ++ errnoText e
  end.

Inductive result (A : Type) :=
| Ok (a : A)
| Err (e : errno).
Arguments Ok {A} a.
Arguments Err {A} e.

(** ** The file system *)

Module os.

(** A directory carries its search (execute) bit; a regular file its
    bytes. *)
Inductive node :=
| Dir (search : bool)
| File (data : string).

(** A resolved location: the names from the root downwards. *)
Definition path := list string.

Fixpoint path_eqb (p q : path) : bool :=
  match p, q with
  | [], [] => true
  | a :: p', b :: q' => String.eqb a b && path_eqb p' q'
  | _, _ => false
  end.

Definition tree := path -> option node.

Definition update (t : tree) (p : path) (n : option node) : tree :=
  fun q => if path_eqb q p then n else t q.

Record state := mkState { cwd : path; files : tree }.

Definition isDot (e : string) : bool := String.eqb e ".".
Definition isDotDot (e : string) : bool := String.eqb e "..".

(** Path resolution, one element at a time.  Looking a name up in a
    directory needs the directory's search bit; an empty element (a
    doubled or trailing slash) only needs a directory. *)
Fixpoint walk (t : tree) (cur : path) (es : list string) : result path :=
  match es with
  | [] => Ok cur
  | e :: es' =>
      match t cur with
      | None => Err ENOENT
      | Some (File _) => Err ENOTDIR
      | Some (Dir x) =>
          if String.eqb e "" then walk t cur es'
          else if negb x then Err EACCES
          else if isDot e then walk t cur es'
          else if isDotDot e then walk t (removelast cur) es'
          else walk t (cur ++ [e])%list es'
      end
  end.

Definition start (s : state) (p : string) : path :=
  if filepath.IsAbs p then [] else cwd s.

Definition resolve (s : state) (p : string) : result path :=
  if String.eqb p "" then Err ENOENT
  else walk (files s) (start s p) (strings.SplitSlash p).

(** [os.Stat]. *)
Definition Stat (s : state) (p : string) : result node :=
  match resolve s p with
  | Err e => Err e
  | Ok q => match files s q with
            | Some n => Ok n
            | None => Err ENOENT
            end
  end.

(** The absolute path string of a location. *)
Definition render (q : path) : string := "/" ++ strings.JoinSlash q.

(** [os.Getwd]. *)
Definition Getwd (s : state) : string := render (cwd s).

(** [os.Chdir]: the target must resolve to a directory that may be
    searched; a failure leaves the state as it was. *)
Definition Chdir (s : state) (p : string) : state * option error :=
  match resolve s p with
  | Err e => (s, Some (PathError "chdir" p e))
  | Ok q =>
      match files s q with
      | None => (s, Some (PathError "chdir" p ENOENT))
      | Some (File _) => (s, Some (PathError "chdir" p ENOTDIR))
      | Some (Dir false) => (s, Some (PathError "chdir" p EACCES))
      | Some (Dir true) => (mkState q (files s), None)
      end
  end.

(** The directories [os.MkdirAll] makes on its way along the path.  What
    was made before a failure stays. *)
Fixpoint mkdirs (t : tree) (cur : path) (es : list string) : tree * option errno :=
  match es with
  | [] =>
      match t cur with
      | Some (Dir _) => (t, None)
      | Some (File _) => (t, Some ENOTDIR)
      | None => (t, Some ENOENT)
      end
  | e :: es' =>
      match t cur with
      | None => (t, Some ENOENT)
      | Some (File _) => (t, Some ENOTDIR)
      | Some (Dir x) =>
          if String.eqb e "" then mkdirs t cur es'
          else if negb x then (t, Some EACCES)
          else if isDot e then mkdirs t cur es'
          else if isDotDot e then mkdirs t (removelast cur) es'
          else match t (cur ++ [e])%list with
               | None => mkdirs (update t (cur ++ [e])%list (Some (Dir true)))
                           (cur ++ [e])%list es'
               | Some _ => mkdirs t (cur ++ [e])%list es'
               end
      end
  end.

(** [os.MkdirAll(p, 0755)]. *)
Definition MkdirAll (s : state) (p : string) : state * option error :=
  if String.eqb p "" then (s, Some (PathError "mkdir" p ENOENT))
  else
    match mkdirs (files s) (start s p) (strings.SplitSlash p) with
    | (t, None) => (mkState (cwd s) t, None)
    | (t, Some e) => (mkState (cwd s) t, Some (PathError "mkdir" p e))
    end.

(** [os.Create]: an empty regular file at [p], truncating a file that is
    there; the location of the file is the handle. *)
Definition Create (s : state) (p : string) : state * (path + error) :=
  match resolve s p with
  | Err e => (s, inr (PathError "open" p e))
  | Ok q =>
      match files s q with
      | Some (Dir _) => (s, inr (PathError "open" p EISDIR))
      | _ => (mkState (cwd s) (update (files s) q (Some (File ""))), inl q)
      end
  end.

(** Writing through a handle replaces the bytes of the file. *)
Definition Write (s : state) (q : path) (data : string) : state :=
  mkState (cwd s) (update (files s) q (Some (File data))).

(** [os.Rename(old, new)] for a regular file [old], the only kind of
    source the program passes; a directory as source is refused. *)
Definition Rename (s : state) (old new : string) : state * option error :=
  match resolve s old, resolve s new with
  | Err e, _ => (s, Some (LinkError "rename" old new e))
  | _, Err e => (s, Some (LinkError "rename" old new e))
  | Ok qo, Ok qn =>
      match files s qo with
      | None => (s, Some (LinkError "rename" old new ENOENT))
      | Some (Dir _) => (s, Some (LinkError "rename" old new EINVAL))
      | Some (File data) =>
          match files s qn with
          | Some (Dir _) => (s, Some (LinkError "rename" old new EISDIR))
          | _ => (mkState (cwd s)
                    (update (update (files s) qo None) qn (Some (File data))),
                  None)
          end
      end
  end.

(** What [ioutil.ReadDir] reports of an entry. *)
Record FileInfo := mkFileInfo { Name : string; IsDir : bool; Size : Z }.

End os.

(** ** The messaging library *)

Module tele.

(** What fetching a file reference will deliver: nothing, a part of the
    bytes before the connection breaks, or all of them. *)
Inductive transfer :=
| Unreachable (why : string)
| Broken (written : string) (why : string)
| Complete (content : string).

Record File := mkFile { UniqueID : string; remote : transfer }.

Record Document := mkDocument { DocFile : File; FileName : string }.
Record Photo := mkPhoto { PhotoFile : File }.
Record Video := mkVideo { VideoFile : File; MIME : string }.

(** [Bot.Download(file, localFilename)]: open the remote reader, create
    the local file, copy. *)
Definition Download (s : os.state) (f : File) (localFilename : string)
  : os.state * option error :=
  match remote f with
  | Unreachable why => (s, Some (errorString why))
  | Broken written why =>
      match os.Create s localFilename with
      | (s', inr e) => (s', Some e)
      | (s', inl h) => (os.Write s' h written, Some (errorString why))
      end
  | Complete content =>
      match os.Create s localFilename with
      | (s', inr e) => (s', Some e)
      | (s', inl h) => (os.Write s' h content, None)
      end
  end.

End tele.

(** ** The program: configuration, statistics and the shared state *)

Record Cfg := mkCfg {
  InitialWorkingDir : string;
  TelegramToken : string;
  WhitelistedChatID : Z
}.

(** The three counters are [uint32]; [startTime] is only printed and is
    left out. *)
Record Stats := mkStats {
  DowloadsOk : Z;
  DownloadsErr : Z;
  DownloadsPending : Z
}.

Definition errorOutside : error := errorString "outside initial working dir".

Module atomic.

Definition wrap32 (z : Z) : Z := z mod 2 ^ 32.

(** [^uint32(0)]. *)
Definition allOnes : Z := 2 ^ 32 - 1.

(** The value [atomic.AddUint32] stores and returns. *)
Definition AddUint32 (x delta : Z) : Z := wrap32 (x + delta).

End atomic.

(** Where a [downloadFile] goroutine stands: each constructor names the
    access to shared state it makes next. *)
Inductive pc :=
| Claim
| Transfer
| Promote (fpath tmp : string)
| CountErr
| CountOk
| Release
| Report (pending : Z)
| Done.

Record goroutine := mkGoroutine {
  file : tele.File;
  fname : string;
  at_pc : pc
}.

(** Everything the handlers and goroutines share: the package variables
    [cfg] and [stats], the file system with the process's working
    directory, the messages sent to the chat, the lines of the process log
    and the goroutines started so far. *)
Record World := mkWorld {
  cfg : Cfg;
  stats : Stats;
  fs : os.state;
  sent : list string;
  logged : list string;
  goroutines : list goroutine
}.

Definition M (A : Type) : Type := World -> A * World.

Definition ret {A} (a : A) : M A := fun w => (a, w).

Definition bind {A B} (m : M A) (k : A -> M B) : M B :=
  fun w => let (a, w') := m w in k a w'.

Notation "x <- m ;; k" := (bind m (fun x => k))
  (at level 61, m at next level, right associativity).
Notation "m ;; k" := (bind m (fun _ => k))
  (at level 61, right associativity).

Definition exec {A} (m : M A) (w : World) : World := snd (m w).

Definition nl : string := String (ascii_of_nat 10) "".

(** [c.Reply(msg)] and [c.Send(msg)]: the message goes to the chat. *)
Definition Reply (msg : string) : M (option error) :=
  fun w => (None, mkWorld (cfg w) (stats w) (fs w) (sent w ++ [msg]) (logged w)
                    (goroutines w)).

(** [log.Println] and [log.Printf]: one line of the process log. *)
Definition logPrintln (line : string) : M unit :=
  fun w => (tt, mkWorld (cfg w) (stats w) (fs w) (sent w) (logged w ++ [line])
                  (goroutines w)).

Definition getCfg : M Cfg := fun w => (cfg w, w).

Definition getStats : M Stats := fun w => (stats w, w).

Definition putStats (s : Stats) : M unit :=
  fun w => (tt, mkWorld (cfg w) s (fs w) (sent w) (logged w) (goroutines w)).

(** A call into the file system. *)
Definition sys {A} (call : os.state -> os.state * A) : M A :=
  fun w => let (s, a) := call (fs w) in
           (a, mkWorld (cfg w) (stats w) s (sent w) (logged w) (goroutines w)).

(** [go downloadFile(c, f, fname)]. *)
Definition spawn (f : tele.File) (name : string) : M unit :=
  fun w => (tt, mkWorld (cfg w) (stats w) (fs w) (sent w) (logged w)
                  (goroutines w ++ [mkGoroutine f name Claim])).

Inductive counter := Succeeded | Failed | Pending.

(** [atomic.AddUint32(&stats.<counter>, delta)]. *)
Definition AddUint32 (c : counter) (delta : Z) : M Z :=
  s <- getStats ;;
  match c with
  | Succeeded =>
      let v := atomic.AddUint32 (DowloadsOk s) delta in
      putStats (mkStats v (DownloadsErr s) (DownloadsPending s)) ;; ret v
  | Failed =>
      let v := atomic.AddUint32 (DownloadsErr s) delta in
      putStats (mkStats (DowloadsOk s) v (DownloadsPending s)) ;; ret v
  | Pending =>
      let v := atomic.AddUint32 (DownloadsPending s) delta in
      putStats (mkStats (DowloadsOk s) (DownloadsErr s) v) ;; ret v
  end.

(** [atomic.LoadUint32]. *)
Definition LoadUint32 (c : counter) : M Z :=
  s <- getStats ;;
  ret match c with
      | Succeeded => DowloadsOk s
      | Failed => DownloadsErr s
      | Pending => DownloadsPending s
      end.

(** ** The handlers *)

Definition mustGetWd : M string := fun w => (os.Getwd (fs w), w).

Definition logEverywhere (s : string) : M unit :=
  logPrintln s ;;
  Reply s ;;
  ret tt.

Definition handleHelp (chatID : Z) : M (option error) :=
  let msg := "This is a bot for downloading attachments." ++ nl in
  let msg := msg ++ "Chat ID: " ++ fmt.d chatID ++ nl ++ "Commands:" ++ nl in
  let msg := msg ++ "/help - show this help" ++ nl in
  let msg := msg ++ "/cd [-r] <path> - change working directory (-r: reset to initial working dir)" ++ nl in
  let msg := msg ++ "/pwd - print working directory" ++ nl in
  let msg := msg ++ "/ls - list files in current working directory" ++ nl in
  let msg := msg ++ "/stats - print statistics" ++ nl in
  Reply msg.

Definition handlePwd : M (option error) :=
  wd <- mustGetWd ;;
  Reply wd.

(** [size] is an [int64]; [/] on it truncates towards zero. *)
Definition humanReadableSize (size : Z) : string :=
  if size <? 1024 then fmt.d size ++ " B"
  else if size <? 1024 * 1024 then fmt.d (size ÷ 1024) ++ " KB"
  else if size <? 1024 * 1024 * 1024 then fmt.d (size ÷ 1024 ÷ 1024) ++ " MB"
  else fmt.d (size ÷ 1024 ÷ 1024 ÷ 1024) ++ " GB".

(** The line [fmt.Sprintf("%c %-50s: %s\n", t, file.Name(), ...)]. *)
Definition entryLine (file : os.FileInfo) : string :=
  let t := if os.IsDir file then "d"%char else "-"%char in
  fmt.c t ++ " " ++ fmt.s_left 50 (os.Name file) ++ ": "
    ++ humanReadableSize (os.Size file) ++ nl.

(** The [for] loop of [handleLs]; [msg] is the buffer it carries. *)
Fixpoint lsLoop (files : list os.FileInfo) (msg : string) : M string :=
  match files with
  | [] => ret msg
  | file :: rest =>
      let s := entryLine file in
      msg <- (if len s + len msg >=? 400
              then Reply msg ;; ret ""
              else ret msg) ;;
      lsLoop rest (msg ++ s)
  end.

(** [ReadDir] is what [ioutil.ReadDir(wd)] answers. *)
Definition handleLs (ReadDir : string -> list os.FileInfo + error)
  : M (option error) :=
  wd <- mustGetWd ;;
  match ReadDir wd with
  | inr err => ret (Some err)
  | inl files =>
      msg <- lsLoop files ("Files in " ++ wd ++ ":" ++ nl) ;;
      Reply msg
  end.

Definition handleCd (args : list string) : M (option error) :=
  match args with
  | [arg] =>
      c <- getCfg ;;
      let wd := if String.eqb arg "-r" then InitialWorkingDir c else arg in
      if filepath.IsAbs wd && negb (strings.HasPrefix wd (InitialWorkingDir c))
      then
        logEverywhere "Path is not relative to initial working dir" ;;
        ret (Some errorOutside)
      else
        err <- sys (fun s => os.MkdirAll s wd) ;;
        match err with
        | Some e =>
            logEverywhere ("MkdirAll: " ++ Error e) ;;
            ret (Some e)
        | None =>
            err <- sys (fun s => os.Chdir s wd) ;;
            match err with
            | Some e =>
                logEverywhere ("Chdir: " ++ Error e) ;;
                ret (Some e)
            | None =>
                logPrintln ("Working directory changed to " ++ wd) ;;
                Reply "done!"
            end
        end
  | _ => Reply "Usage: /cd [-r] <path>"
  end.

(** [uptime] is the rendering of [time.Since(stats.startTime)]. *)
Definition handleStats (uptime : string) : M (option error) :=
  ok <- LoadUint32 Succeeded ;;
  fail <- LoadUint32 Failed ;;
  pending <- LoadUint32 Pending ;;
  logEverywhere ("Stats:" ++ nl ++ "Uptime: " ++ uptime ++ nl ++ "Downloads : "
                 ++ fmt.d ok ++ "/" ++ fmt.d (atomic.wrap32 (ok + fail))
                 ++ " (pending: " ++ fmt.d pending ++ ")") ;;
  ret None.

(** ** Downloads *)

Definition allFinished : string := "All downloads finished".

Definition downloadFileInternal (f : tele.File) (name : string) : M unit :=
  logPrintln ("Enqueued: " ++ name) ;;
  wd <- mustGetWd ;;
  let fpath := filepath.Join wd name in
  let tmp := fpath ++ ".tmp" in
  err <- sys (fun s => tele.Download s f tmp) ;;
  match err with
  | Some e =>
      logEverywhere ("Error: Download: " ++ Error e) ;;
      AddUint32 Failed 1 ;;
      ret tt
  | None =>
      err <- sys (fun s => os.Rename s tmp fpath) ;;
      match err with
      | Some e =>
          logEverywhere ("Error: Rename: " ++ Error e) ;;
          AddUint32 Failed 1 ;;
          ret tt
      | None =>
          AddUint32 Succeeded 1 ;;
          ret tt
      end
  end.

(** What [downloadFile] says after it has released its slot. *)
Definition report (pending : Z) : M unit :=
  if pending =? 0 then logEverywhere allFinished
  else if pending mod 5 =? 0
       then logEverywhere ("Done. Pending downloads: " ++ fmt.d pending)
       else ret tt.

(** [downloadFile], run from start to end with nothing in between. *)
Definition downloadFile (f : tele.File) (name : string) : M unit :=
  AddUint32 Pending 1 ;;
  downloadFileInternal f name ;;
  pending <- AddUint32 Pending atomic.allOnes ;;
  report pending.

Definition handleOnDocument (doc : tele.Document) : M (option error) :=
  let name := tele.FileName doc in
  name <- (if String.eqb name ""
           then logPrintln ("Document without filename: "
                             ++ tele.UniqueID (tele.DocFile doc)) ;;
                ret (tele.UniqueID (tele.DocFile doc))
           else ret name) ;;
  spawn (tele.DocFile doc) name ;;
  ret None.

Definition handleOnPhoto (p : tele.Photo) : M (option error) :=
  spawn (tele.PhotoFile p) (tele.UniqueID (tele.PhotoFile p) ++ ".jpg") ;;
  ret None.

Definition handleOnVideo (v : tele.Video) : M (option error) :=
  (if negb (String.eqb (tele.MIME v) "video/mp4")
   then logEverywhere ("Unsupported video format: " ++ tele.MIME v
                       ++ ", wants 'video/mp4'")
   else ret tt) ;;
  spawn (tele.VideoFile v) (tele.UniqueID (tele.VideoFile v) ++ ".mp4") ;;
  ret None.

(** ** Goroutines and the whole bot *)

(** One step of a [downloadFile] goroutine: the code between two accesses
    to shared state.  Fetching, creating and writing the temporary file is
    one step (one call of [Download]). *)
Definition stepAt (f : tele.File) (name : string) (at_ : pc) : M pc :=
  match at_ with
  | Claim =>
      AddUint32 Pending 1 ;;
      ret Transfer
  | Transfer =>
      logPrintln ("Enqueued: " ++ name) ;;
      wd <- mustGetWd ;;
      let fpath := filepath.Join wd name in
      let tmp := fpath ++ ".tmp" in
      err <- sys (fun s => tele.Download s f tmp) ;;
      match err with
      | Some e =>
          logEverywhere ("Error: Download: " ++ Error e) ;;
          ret CountErr
      | None => ret (Promote fpath tmp)
      end
  | Promote fpath tmp =>
      err <- sys (fun s => os.Rename s tmp fpath) ;;
      match err with
      | Some e =>
          logEverywhere ("Error: Rename: " ++ Error e) ;;
          ret CountErr
      | None => ret CountOk
      end
  | CountErr =>
      AddUint32 Failed 1 ;;
      ret Release
  | CountOk =>
      AddUint32 Succeeded 1 ;;
      ret Release
  | Release =>
      pending <- AddUint32 Pending atomic.allOnes ;;
      ret (Report pending)
  | Report pending =>
      report pending ;;
      ret Done
  | Done => ret Done
  end.

Fixpoint replace {A} (i : nat) (x : A) (l : list A) : list A :=
  match l, i with
  | [], _ => []
  | _ :: l', O => x :: l'
  | a :: l', S j => a :: replace j x l'
  end.

(** The scheduler lets goroutine [i] make its next step. *)
Definition schedule (i : nat) : M unit :=
  fun w =>
    match nth_error (goroutines w) i with
    | None => (tt, w)
    | Some g =>
        let (at', w') := stepAt (file g) (fname g) (at_pc g) w in
        (tt, mkWorld (cfg w') (stats w') (fs w') (sent w') (logged w')
               (replace i (mkGoroutine (file g) (fname g) at') (goroutines w')))
    end.

(** What can happen to the bot: a command or an attachment arrives, or a
    goroutine moves on. *)
Inductive event :=
| Help (chatID : Z)
| Pwd
| Ls (ReadDir : string -> list os.FileInfo + error)
| Cd (args : list string)
| StatsCmd (uptime : string)
| OnDocument (doc : tele.Document)
| OnPhoto (p : tele.Photo)
| OnVideo (v : tele.Video)
| Run (i : nat).

Definition deliver (e : event) (w : World) : World :=
  match e with
  | Help chatID => exec (handleHelp chatID) w
  | Pwd => exec handlePwd w
  | Ls ReadDir => exec (handleLs ReadDir) w
  | Cd args => exec (handleCd args) w
  | StatsCmd uptime => exec (handleStats uptime) w
  | OnDocument doc => exec (handleOnDocument doc) w
  | OnPhoto p => exec (handleOnPhoto p) w
  | OnVideo v => exec (handleOnVideo v) w
  | Run i => exec (schedule i) w
  end.

Definition run (es : list event) (w : World) : World :=
  fold_left (fun w e => deliver e w) es w.

(** [initCfg] and the start of [main]: the initial working directory is
    the directory the process starts in, the counters are zero.  The checks
    that end the process at once (no token, a chat id that is no number)
    have been passed. *)
Definition initCfg (token : string) (chat : Z) (s : os.state) : Cfg :=
  mkCfg (os.Getwd s) token chat.

Definition boot (token : string) (chat : Z) (s : os.state) : World :=
  mkWorld (initCfg token chat s) (mkStats 0 0 0) s []
    ["Working directory: " ++ os.Getwd s] [].

(** ** Vocabulary of the statements *)

(** A download is in flight from its claim of a pending slot until it has
    released it. *)
Definition inFlightAt (at_ : pc) : bool :=
  match at_ with
  | Transfer | Promote _ _ | CountErr | CountOk | Release => true
  | _ => false
  end.

Definition inFlight (g : goroutine) : bool := inFlightAt (at_pc g).

(** A download is submitted once it has claimed its slot. *)
Definition submittedAt (at_ : pc) : bool :=
  match at_ with
  | Claim => false
  | _ => true
  end.

Definition submitted (g : goroutine) : bool := submittedAt (at_pc g).

(** A download is accounted once it has added to one of the two result
    counters. *)
Definition accountedAt (at_ : pc) : bool :=
  match at_ with
  | Release | Report _ | Done => true
  | _ => false
  end.

Definition accounted (g : goroutine) : bool := accountedAt (at_pc g).

(** A download is finished when its goroutine has nothing left to do. *)
Definition finishedAt (at_ : pc) : bool :=
  match at_ with
  | Done => true
  | _ => false
  end.

Definition finished (g : goroutine) : bool := finishedAt (at_pc g).

Definition count (p : goroutine -> bool) (w : World) : Z :=
  Z.of_nat (List.length (filter p (goroutines w))).


(** How often the chat was told that all downloads have finished. *)
Definition noticesIn (msgs : list string) : nat :=
  List.length (filter (String.eqb allFinished) msgs).

Definition finishedNotices (w : World) : nat := noticesIn (sent w).

(** [p] names the root directory or a location below it. *)
Definition under (root p : os.path) : Prop := exists rest, p = (root ++ rest)%list.

Fixpoint noSlash (s : string) : bool :=
  match s with
  | EmptyString => true
  | String c s' => negb (Ascii.eqb c "/") && noSlash s'
  end.

(** A name of a directory entry: not empty, no slash, neither [.] nor
    [..]. *)
Definition isName (e : string) : bool :=
  noSlash e && negb (String.eqb e "") && negb (String.eqb e ".")
    && negb (String.eqb e "..").

(** The names under which a handler submits downloads: those of the
    goroutines it starts. *)
Definition submittedAs (h : M (option error)) (w : World) : list string :=
  map fname (skipn (List.length (goroutines w)) (goroutines (exec h w))).

(** The chunking rule of the directory listing, as the specification words
    it: [Chunked buf entries msgs] says that with [buf] in the buffer the
    rendered [entries] leave as the messages [msgs].  An entry that would
    bring the buffer to 400 bytes or more makes the buffer leave first and
    starts the next one; an entry that fits is appended; what is in the
    buffer at the end leaves as the last message. *)
Inductive Chunked : string -> list string -> list string -> Prop :=
| Chunked_final (buf : string) :
    Chunked buf [] [buf]
| Chunked_flush (buf e : string) (rest msgs : list string) :
    len e + len buf >= 400 ->
    Chunked e rest msgs ->
    Chunked buf (e :: rest) (buf :: msgs)
| Chunked_append (buf e : string) (rest msgs : list string) :
    len e + len buf < 400 ->
    Chunked (buf ++ e) rest msgs ->
    Chunked buf (e :: rest) msgs.

(** The first message of a listing starts with this line. *)
Definition lsHeader (wd : string) : string := "Files in " ++ wd ++ ":" ++ nl.

(** [t'] has every directory of [t], with the same search bit. *)
Definition extends (t t' : os.tree) : Prop :=
  forall p x, t p = Some (os.Dir x) -> t' p = Some (os.Dir x).

(** The process stands in a directory that is there: the names of its
    working directory are proper names, and the directory and all above it
    exist and may be searched. *)
Definition sound (s : os.state) : Prop :=
  Forall (fun e => isName e = true) (os.cwd s)
  /\ forall k, os.files s (firstn k (os.cwd s)) = Some (os.Dir true).


(** The elements [strings.Split] finds in the rendering of a location. *)
Definition elems (q : os.path) : list string :=
  match q with
  | [] => [""]
  | _ => q
  end.


(** The world with other messages in the chat. *)
Definition withSent (w : World) (msgs : list string) : World :=
  mkWorld (cfg w) (stats w) (fs w) msgs (logged w) (goroutines w).

(** The counters agree with the goroutines: [DownloadsPending] is the
    number of downloads in flight and the two result counters share the
    accounted downloads between them, all as [uint32]. *)
Definition balanced (w : World) : Prop :=
  DownloadsPending (stats w) = atomic.wrap32 (count inFlight w)
  /\ exists a b,
       0 <= a /\ 0 <= b /\ a + b = count accounted w
       /\ DowloadsOk (stats w) = atomic.wrap32 a
       /\ DownloadsErr (stats w) = atomic.wrap32 b.

(** A goroutine making [n] steps with nothing in between. *)
Fixpoint stepsFrom (n : nat) (f : tele.File) (name : string) (at_ : pc) : M pc :=
  match n with
  | O => ret at_
  | S k => next <- stepAt f name at_ ;; stepsFrom k f name next
  end.

(** The goroutine has released its slot as the last one in flight and has
    not yet said so. *)
Definition lastOutAt (at_ : pc) : bool :=
  match at_ with
  | Report pending => pending =? 0
  | _ => false
  end.

Definition one (b : bool) : nat := if b then 1%nat else 0%nat.

Definition cnt (p : goroutine -> bool) (l : list goroutine) : nat :=
  List.length (filter p l).

(** All [n] downloads there are have been submitted, and the chat has been
    told that all downloads have finished, or is about to be told by the
    goroutine that was the last one out, exactly if none is in flight any
    more. *)
Definition draining (n : nat) (w : World) : Prop :=
  List.length (goroutines w) = n
  /\ balanced w
  /\ cnt submitted (goroutines w) = n
  /\ (finishedNotices w + cnt (fun g => lastOutAt (at_pc g)) (goroutines w)
      = one (count inFlight w =? 0)%Z)%nat.

(** A message that does not start with the letter A. *)
Definition otherStart (s : string) : Prop :=
  exists c r, s = String c r /\ c <> "A"%char.

(** The goroutines a handler starts stand at their first step. *)
Definition fresh (extra : list goroutine) : Prop :=
  Forall (fun g => at_pc g = Claim) extra.

(** What [report] sends to the chat. *)
Definition reportMessages (pending : Z) : list string :=
  if pending =? 0 then [allFinished]
  else if pending mod 5 =? 0
       then ["Done. Pending downloads: " ++ fmt.d pending]
       else [].

(** The number of runes of a string, as [len] is its number of bytes. *)
Definition chars (s : string) : Z := Z.of_nat (utf8.RuneCountInString s).

(** A toy file system for the examples: [/data] with the subdirectory
    [/data/locked], which may not be searched, and the file [/data/a.txt];
    the process is in [/data]. *)
Definition demoTree : os.tree :=
  os.update (os.update (os.update (os.update (fun _ => None)
    [] (Some (os.Dir true)))
    ["data"] (Some (os.Dir true)))
    ["data"; "locked"] (Some (os.Dir false)))
    ["data"; "a.txt"] (Some (os.File "hello")).

Definition demoFs : os.state := os.mkState ["data"] demoTree.

Definition demo : World := boot "token" 0 demoFs.

(** Seven documents with different names, all of which can be fetched. *)
Definition sevenDocuments : list tele.Document :=
  map (fun n => tele.mkDocument (tele.mkFile n (tele.Complete "bytes")) n)
    ["a"; "b"; "c"; "d"; "e"; "f"; "g"].

(** They arrive, and every goroutine claims its slot before any goes on. *)
Definition sevenArrive : list event :=
  (map OnDocument sevenDocuments ++ map Run (seq 0 7))%list.

(** Then each goroutine runs to its end. *)
Definition sevenFinish : list event :=
  flat_map (fun i => repeat (Run i) 5) (seq 0 7).

(** Two documents, the second arriving when the first is done. *)
Definition oneAfterTheOther : list event :=
  flat_map (fun i => OnDocument (nth i sevenDocuments
                                   (tele.mkDocument
                                      (tele.mkFile "" (tele.Unreachable "")) ""))
                     :: repeat (Run i) 6) (seq 0 2).

(** ** Vocabulary of the further statements *)

(** The argument [handleCd] goes to. *)
Definition target (w : World) (arg : string) : string :=
  if String.eqb arg "-r" then InitialWorkingDir (cfg w) else arg.

(** Everything above [cur] is a directory that may be searched, and [cur]
    is made of proper names. *)
Definition approach (t : os.tree) (cur : os.path) : Prop :=
  Forall (fun e => isName e = true) cur
  /\ forall k, (k < List.length cur)%nat ->
               t (firstn k cur) = Some (os.Dir true).

(** An argument of [/cd] that stays inside [root]: the reset, a relative
    path of proper names, or the rendering of a location below [root]. *)
Definition staysInside (root : os.path) (arg : string) : Prop :=
  arg = "-r"
  \/ (filepath.IsAbs arg = false
      /\ Forall (fun e => isName e = true) (strings.SplitSlash arg))
  \/ exists rest,
       Forall (fun e => isName e = true) (root ++ rest)%list
       /\ arg = os.render (root ++ rest)%list.

(** An event whose [/cd], if it is one, stays inside [root]. *)
Definition tame (root : os.path) (e : event) : Prop :=
  match e with
  | Cd [arg] => staysInside root arg
  | _ => True
  end.

(** Every byte of the string is below 128. *)
Fixpoint allAscii (s : string) : bool :=
  match s with
  | EmptyString => true
  | String c s' => (utf8.byte c <? 128) && allAscii s'
  end.

(** ** Startup *)

Module strconv.

(** [strconv.ParseInt(s, 10, 64)]: an optional sign and at least one
    decimal digit, nothing else, within the range of [int64]; [None]
    stands for either of its errors (syntax, range). *)
Definition ParseInt (s : string) : option Z :=
  match s with
  | EmptyString => None
  | String c rest =>
      let neg := Ascii.eqb c "-" in
      let digits := if Ascii.eqb c "+" || Ascii.eqb c "-" then rest else s in
      match NilZero.uint_of_string digits with
      | None => None
      | Some u =>
          let n := Z.of_uint u in
          if neg then (if n <=? 2 ^ 63 then Some (- n) else None)
          else (if n <? 2 ^ 63 then Some n else None)
      end
  end.

End strconv.

(** The environment of the process: [os.Getenv] is application, a
    variable that is not set reads as the empty string. *)
Definition env : Type := string -> string.

(** [os.Setenv]. *)
Definition Setenv (e : env) (key value : string) : env :=
  fun k => if String.eqb k key then value else e k.

(** Why [log.Fatal] ended the process. *)
Inductive fatal := TokenNotSet | ChatIdNotANumber | DestNotSet.

Inductive startup :=
| Fatal (why : fatal)
| Started (c : Cfg) (e : env).

(** [initCfg] with the environment it reads and erases. *)
Definition initCfgFrom (s : os.state) (e : env) : startup :=
  let wd := os.Getwd s in
  let token := e "TELEGRAM_TOKEN" in
  if String.eqb token "" then Fatal TokenNotSet
  else
    let e := Setenv e "TELEGRAM_TOKEN" "" in
    let chatId := e "TELEGRAM_CHATID" in
    if negb (String.eqb chatId "") then
      match strconv.ParseInt chatId with
      | None => Fatal ChatIdNotANumber
      | Some n => Started (mkCfg wd token n) (Setenv e "TELEGRAM_CHATID" "")
      end
    else Started (mkCfg wd token 0) e.


(** ** The second program of [main.go] *)

Module v4.

(** Its [initCfg]: the destination comes from the environment. *)
Definition initCfgFrom (e : env) : startup :=
  let dest := e "TELEGRAM_DEST" in
  if String.eqb dest "" then Fatal DestNotSet
  else
    let e := Setenv e "TELEGRAM_DEST" "" in
    let token := e "TELEGRAM_TOKEN" in
    if String.eqb token "" then Fatal TokenNotSet
    else
      let e := Setenv e "TELEGRAM_TOKEN" "" in
      let chatId := e "TELEGRAM_CHATID" in
      if negb (String.eqb chatId "") then
        match strconv.ParseInt chatId with
        | None => Fatal ChatIdNotANumber
        | Some n => Started (mkCfg dest token n) (Setenv e "TELEGRAM_CHATID" "")
        end
      else Started (mkCfg dest token 0) e.

Definition handleHelp (chatID : Z) : M (option error) :=
  let msg := "This is a bot for downloading attachments." ++ nl in
  let msg := msg ++ "Chat ID: " ++ fmt.d chatID ++ nl ++ "Commands:" ++ nl in
  let msg := msg ++ "/help - show this help" ++ nl in
  let msg := msg ++ "/stats - print statistics" ++ nl in
  Reply msg.

(** Its [downloadFileInternal]: the chat is told that the download is
    enqueued, and the final path is below the configured destination. *)
Definition downloadFileInternal (f : tele.File) (name : string) : M unit :=
  logPrintln ("Enqueued: " ++ name) ;;
  logEverywhere ("Enqueued: " ++ name ++ nl) ;;
  c <- getCfg ;;
  let fpath := filepath.Join (InitialWorkingDir c) name in
  let tmp := fpath ++ ".tmp" in
  err <- sys (fun s => tele.Download s f tmp) ;;
  match err with
  | Some e =>
      logEverywhere ("Error: Download: " ++ Error e) ;;
      AddUint32 Failed 1 ;;
      ret tt
  | None =>
      err <- sys (fun s => os.Rename s tmp fpath) ;;
      match err with
      | Some e =>
          logEverywhere ("Error: Rename: " ++ Error e) ;;
          AddUint32 Failed 1 ;;
          ret tt
      | None =>
          AddUint32 Succeeded 1 ;;
          ret tt
      end
  end.

Definition downloadFile (f : tele.File) (name : string) : M unit :=
  AddUint32 Pending 1 ;;
  downloadFileInternal f name ;;
  pending <- AddUint32 Pending atomic.allOnes ;;
  report pending.

End v4.

(** An environment for the examples. *)
Definition demoEnv : env :=
  Setenv (Setenv (fun _ => "") "TELEGRAM_TOKEN" "123:abc") "TELEGRAM_CHATID" "-1001".

(** The state after bytes were written to a fresh or truncated file. *)
Definition written (s : os.state) (q : os.path) (data : string) : os.state :=
  os.Write (os.mkState (os.cwd s) (os.update (os.files s) q (Some (os.File ""))))
    q data.

(** * Theorems *)

(** ** The library functions on examples *)

Example clean1 : filepath.Clean "/data//a/./b/../c/" = "/data/a/c".
Proof. reflexivity. Qed.
Example clean2 : filepath.Clean "../../x/.." = "../..".
Proof. reflexivity. Qed.
Example clean3 : filepath.Join "/data" "../../x" = "/x".
Proof. reflexivity. Qed.
Example runes1 : utf8.RuneCountInString "abc" = 3%nat.
Proof. reflexivity. Qed.

(** ** Byte strings *)

Lemma strlen_app (a b : string) :
  String.length (a ++ b) = (String.length a + String.length b)%nat.
Proof.
  induction a as [|c a IH]; simpl; auto.
Qed.

Lemma app_empty_r (a : string) : a ++ "" = a.
Proof.
  induction a as [|c a IH]; simpl; congruence.
Qed.

Lemma strapp_assoc (a b c : string) : (a ++ b) ++ c = a ++ b ++ c.
Proof.
  induction a as [|x a IH]; simpl; congruence.
Qed.

(** ** Size formatting *)

(** [%d] prints a negative number as a minus sign and its magnitude. *)
Lemma fmt_d_negative (z : Z) : z < 0 -> fmt.d z = "-" ++ fmt.d (- z).
Proof.
  destruct z as [|p|p]; intro H; try lia.
  reflexivity.
Qed.

(** [%d] prints a numeral that reads back as the number. *)
Lemma fmt_d_reads_back (z : Z) :
  option_map Z.of_int (NilZero.int_of_string (fmt.d z)) = Some z.
Proof.
  unfold fmt.d.
  destruct z as [|p|p].
  - reflexivity.
  - rewrite NilZero.isi.
    + simpl. f_equal. apply (DecimalZ.of_to (Z.pos p)).
    + simpl. intro H. inversion H as [H1].
      pose proof (DecimalPos.Unsigned.to_uint_nonnil p) as Hn. congruence.
    + discriminate.
  - rewrite NilZero.isi.
    + simpl. f_equal. apply (DecimalZ.of_to (Z.neg p)).
    + discriminate.
    + simpl. intro H. inversion H as [H1].
      pose proof (DecimalPos.Unsigned.to_uint_nonnil p) as Hn. congruence.
Qed.

Lemma quot_twice (z : Z) : 0 <= z -> z ÷ 1024 ÷ 1024 = z / (1024 * 1024).
Proof.
  intro H.
  rewrite (Z.quot_div_nonneg z 1024) by lia.
  rewrite Z.quot_div_nonneg by (try apply Z.div_pos; lia).
  rewrite Z.div_div by lia. reflexivity.
Qed.

Lemma quot_thrice (z : Z) :
  0 <= z -> z ÷ 1024 ÷ 1024 ÷ 1024 = z / (1024 * 1024 * 1024).
Proof.
  intro H.
  rewrite (quot_twice z) by lia.
  rewrite Z.quot_div_nonneg by (try apply Z.div_pos; lia).
  rewrite Z.div_div by lia. reflexivity.
Qed.

(** C7. A size of at least zero is printed in the largest unit it reaches:
    below 1024 as the number of bytes followed by [" B"], below 1024^2 as
    the whole number of kibibytes (the quotient of the division by 1024,
    remainder dropped) followed by [" KB"], below 1024^3 likewise in
    [" MB"], and from there on in [" GB"]; so 0 gives ["0 B"], 1024 and
    1536 give ["1 KB"], 1048576 gives ["1 MB"] and 1073741824 gives
    ["1 GB"]. *)
Theorem humanReadableSize_units (size : Z) (Hsize : 0 <= size) :
  (size < 1024 -> humanReadableSize size = fmt.d size ++ " B")
  /\ (1024 <= size < 1024 ^ 2 ->
      humanReadableSize size = fmt.d (size / 1024) ++ " KB")
  /\ (1024 ^ 2 <= size < 1024 ^ 3 ->
      humanReadableSize size = fmt.d (size / 1024 ^ 2) ++ " MB")
  /\ (1024 ^ 3 <= size ->
      humanReadableSize size = fmt.d (size / 1024 ^ 3) ++ " GB")
  /\ humanReadableSize 0 = "0 B"
  /\ humanReadableSize 1024 = "1 KB"
  /\ humanReadableSize 1536 = "1 KB"
  /\ humanReadableSize 1048576 = "1 MB"
  /\ humanReadableSize 1073741824 = "1 GB".
Proof.
  change (1024 ^ 2) with (1024 * 1024).
  change (1024 ^ 3) with (1024 * 1024 * 1024).
  unfold humanReadableSize.
  repeat split; try reflexivity; intro H.
  - destruct (Z.ltb_spec size 1024); [reflexivity | lia].
  - destruct (Z.ltb_spec size 1024); [lia |].
    destruct (Z.ltb_spec size (1024 * 1024)); [| lia].
    rewrite Z.quot_div_nonneg by lia. reflexivity.
  - destruct (Z.ltb_spec size 1024); [lia |].
    destruct (Z.ltb_spec size (1024 * 1024)); [lia |].
    destruct (Z.ltb_spec size (1024 * 1024 * 1024)); [| lia].
    rewrite (quot_twice size) by lia. reflexivity.
  - destruct (Z.ltb_spec size 1024); [lia |].
    destruct (Z.ltb_spec size (1024 * 1024)); [lia |].
    destruct (Z.ltb_spec size (1024 * 1024 * 1024)); [lia |].
    rewrite (quot_thrice size) by lia. reflexivity.
Qed.

Lemma humanReadableSize_units_witness :
  0 <= 1536 /\ humanReadableSize 1536 = fmt.d (1536 / 1024) ++ " KB".
Proof.
  split; [lia |].
  apply (humanReadableSize_units 1536); lia.
Defined.

(** C10. A negative size takes the first branch: it is printed as the
    number itself, minus sign first, followed by [" B"].  Every [int64]
    has a rendering: a decimal numeral [n] within the [int64] range and one
    of the four units. *)
Theorem humanReadableSize_negative (size : Z)
  (Hrange : - 2 ^ 63 <= size < 2 ^ 63) :
  (size < 0 -> humanReadableSize size = fmt.d size ++ " B"
               /\ fmt.d size = "-" ++ fmt.d (- size))
  /\ exists n unit,
       humanReadableSize size = fmt.d n ++ unit
       /\ In unit [" B"; " KB"; " MB"; " GB"]
       /\ - 2 ^ 63 <= n < 2 ^ 63.
Proof.
  split.
  - intro Hneg. split.
    + unfold humanReadableSize.
      destruct (Z.ltb_spec size 1024); [reflexivity | lia].
    + apply fmt_d_negative. exact Hneg.
  - unfold humanReadableSize.
    destruct (Z.ltb_spec size 1024).
    { exists size, " B". simpl. auto. }
    assert (Hq1 : 0 <= size ÷ 1024 <= size).
    { rewrite Z.quot_div_nonneg by lia. split.
      - apply Z.div_pos; lia.
      - apply Z.div_le_upper_bound; lia. }
    destruct (Z.ltb_spec size (1024 * 1024)).
    { exists (size ÷ 1024), " KB". simpl. repeat split; auto; lia. }
    assert (Hq2 : 0 <= size ÷ 1024 ÷ 1024 <= size).
    { rewrite (quot_twice size) by lia. split.
      - apply Z.div_pos; lia.
      - apply Z.div_le_upper_bound; lia. }
    destruct (Z.ltb_spec size (1024 * 1024 * 1024)).
    { exists (size ÷ 1024 ÷ 1024), " MB". simpl. repeat split; auto; lia. }
    assert (Hq3 : 0 <= size ÷ 1024 ÷ 1024 ÷ 1024 <= size).
    { rewrite (quot_thrice size) by lia. split.
      - apply Z.div_pos; lia.
      - apply Z.div_le_upper_bound; lia. }
    exists (size ÷ 1024 ÷ 1024 ÷ 1024), " GB". simpl. repeat split; auto; lia.
Qed.

Lemma humanReadableSize_negative_witness :
  - 2 ^ 63 <= -5 < 2 ^ 63 /\ humanReadableSize (-5) = "-5 B".
Proof.
  split; [lia |].
  apply (humanReadableSize_negative (-5)); lia.
Defined.

(** ** Names of submitted downloads *)

Lemma skipn_own_length {A} (l extra : list A) :
  skipn (List.length l) (l ++ extra) = extra.
Proof.
  induction l as [|a l IH]; simpl; auto.
Qed.

Lemma append_tail_injective (a b t : string) : a ++ t = b ++ t -> a = b.
Proof.
  revert b. induction a as [|c a IH]; intros [|c' b] H; simpl in H.
  - reflexivity.
  - exfalso. apply (f_equal String.length) in H. simpl in H.
    rewrite strlen_app in H. lia.
  - exfalso. apply (f_equal String.length) in H. simpl in H.
    rewrite strlen_app in H. lia.
  - inversion H. f_equal. apply IH. assumption.
Qed.

Lemma submittedAs_document (doc : tele.Document) (w : World) :
  submittedAs (handleOnDocument doc) w =
  [if String.eqb (tele.FileName doc) "" then tele.UniqueID (tele.DocFile doc)
   else tele.FileName doc].
Proof.
  unfold submittedAs, handleOnDocument, exec, bind, spawn, logPrintln, ret.
  destruct (String.eqb (tele.FileName doc) ""); simpl;
    rewrite skipn_own_length; reflexivity.
Qed.

Lemma submittedAs_photo (p : tele.Photo) (w : World) :
  submittedAs (handleOnPhoto p) w = [tele.UniqueID (tele.PhotoFile p) ++ ".jpg"].
Proof.
  unfold submittedAs, handleOnPhoto, exec, bind, spawn, ret. simpl.
  rewrite skipn_own_length. reflexivity.
Qed.

Lemma submittedAs_video (v : tele.Video) (w : World) :
  submittedAs (handleOnVideo v) w = [tele.UniqueID (tele.VideoFile v) ++ ".mp4"].
Proof.
  unfold submittedAs, handleOnVideo, exec, bind, spawn, logEverywhere,
    logPrintln, Reply, ret.
  destruct (negb (String.eqb (tele.MIME v) "video/mp4")); simpl;
    rewrite skipn_own_length; reflexivity.
Qed.

(** C9. A document that comes without a file name is submitted under its
    unique identifier (and a document with a name under that name); a photo
    is submitted under its unique identifier followed by [".jpg"].  Hence
    two nameless documents, or two photos, with different identifiers are
    submitted under different names, and the name is empty only if the
    identifier is. *)
Theorem filename_substitution :
  (forall doc w, tele.FileName doc = "" ->
     submittedAs (handleOnDocument doc) w = [tele.UniqueID (tele.DocFile doc)])
  /\ (forall doc w, tele.FileName doc <> "" ->
     submittedAs (handleOnDocument doc) w = [tele.FileName doc])
  /\ (forall p w,
     submittedAs (handleOnPhoto p) w = [tele.UniqueID (tele.PhotoFile p) ++ ".jpg"])
  /\ (forall d1 d2 w1 w2,
     tele.FileName d1 = "" -> tele.FileName d2 = "" ->
     tele.UniqueID (tele.DocFile d1) <> tele.UniqueID (tele.DocFile d2) ->
     submittedAs (handleOnDocument d1) w1 <> submittedAs (handleOnDocument d2) w2)
  /\ (forall p1 p2 w1 w2,
     tele.UniqueID (tele.PhotoFile p1) <> tele.UniqueID (tele.PhotoFile p2) ->
     submittedAs (handleOnPhoto p1) w1 <> submittedAs (handleOnPhoto p2) w2)
  /\ (forall doc w, tele.UniqueID (tele.DocFile doc) <> "" ->
     ~ In "" (submittedAs (handleOnDocument doc) w))
  /\ (forall p w, ~ In "" (submittedAs (handleOnPhoto p) w)).
Proof.
  repeat split.
  - intros doc w H. rewrite submittedAs_document, H. reflexivity.
  - intros doc w H. rewrite submittedAs_document.
    destruct (String.eqb_spec (tele.FileName doc) ""); congruence.
  - intros p w. apply submittedAs_photo.
  - intros d1 d2 w1 w2 H1 H2 Hne. rewrite !submittedAs_document, H1, H2.
    simpl. congruence.
  - intros p1 p2 w1 w2 Hne. rewrite !submittedAs_photo.
    intro H. inversion H as [H']. apply append_tail_injective in H'. auto.
  - intros doc w Hid. rewrite submittedAs_document.
    destruct (String.eqb_spec (tele.FileName doc) ""); simpl; intuition congruence.
  - intros p w. rewrite submittedAs_photo. simpl. intros [H|[]].
    destruct (tele.UniqueID (tele.PhotoFile p)); discriminate.
Qed.

Lemma filename_substitution_witness :
  submittedAs
    (handleOnDocument (tele.mkDocument (tele.mkFile "AQAD" (tele.Complete "x")) ""))
    demo = ["AQAD"].
Proof.
  apply (proj1 filename_substitution). reflexivity.
Defined.

(** ** Changing the working directory *)

Lemma MkdirAll_cwd (s : os.state) (p : string) :
  os.cwd (fst (os.MkdirAll s p)) = os.cwd s.
Proof.
  unfold os.MkdirAll.
  destruct (String.eqb p ""); [reflexivity |].
  destruct (os.mkdirs _ _ _) as [t [e|]]; reflexivity.
Qed.

Lemma Chdir_failure (s s' : os.state) (p : string) (e : error) :
  os.Chdir s p = (s', Some e) -> s' = s.
Proof.
  unfold os.Chdir.
  destruct (os.resolve s p) as [q|e0]; [| intro H; inversion H; reflexivity].
  destruct (os.files s q) as [[[|]|]|]; intro H; inversion H; reflexivity.
Qed.

(** C3. When [MkdirAll] succeeds and the [Chdir] after it fails, [handleCd]
    returns that error and the working directory is the one from before
    the command. *)
Theorem handleCd_chdir_failure (w : World) (arg : string) (s1 s2 : os.state)
  (e : error) :
  let wd := if String.eqb arg "-r" then InitialWorkingDir (cfg w) else arg in
  os.MkdirAll (fs w) wd = (s1, None) ->
  os.Chdir s1 wd = (s2, Some e) ->
  os.cwd (fs (exec (handleCd [arg]) w)) = os.cwd (fs w)
  /\ os.Getwd (fs (exec (handleCd [arg]) w)) = os.Getwd (fs w)
  /\ fst (handleCd [arg] w) <> None.
Proof.
  intros wd Hmk Hch.
  assert (Hcwd : os.cwd s1 = os.cwd (fs w)).
  { pose proof (MkdirAll_cwd (fs w) wd) as H. rewrite Hmk in H. exact H. }
  pose proof (Chdir_failure _ _ _ _ Hch) as Hs. subst s2.
  unfold os.Getwd, handleCd, exec, bind, getCfg, sys, logEverywhere,
    logPrintln, Reply, ret.
  fold wd.
  destruct (filepath.IsAbs wd && negb (strings.HasPrefix wd (InitialWorkingDir (cfg w)))).
  - simpl. repeat split; congruence.
  - simpl. rewrite Hmk. simpl. rewrite Hch. simpl.
    rewrite Hcwd. repeat split; congruence.
Qed.

Lemma handleCd_chdir_failure_witness :
  os.Getwd (fs (exec (handleCd ["locked"]) demo)) = os.Getwd (fs demo).
Proof.
  eapply (handleCd_chdir_failure demo "locked"); reflexivity.
Defined.

(** An absolute path that does not start with the initial working
    directory is refused with [errorOutside]; nothing but the chat and the
    log changes. *)
Lemma handleCd_absolute_outside (w : World) (arg : string) :
  arg <> "-r" ->
  filepath.IsAbs arg = true ->
  strings.HasPrefix arg (InitialWorkingDir (cfg w)) = false ->
  fst (handleCd [arg] w) = Some errorOutside
  /\ fs (exec (handleCd [arg]) w) = fs w
  /\ stats (exec (handleCd [arg]) w) = stats w.
Proof.
  intros Hr Habs Hpre.
  unfold handleCd, exec, bind, getCfg, logEverywhere, logPrintln, Reply, ret.
  destruct (String.eqb_spec arg "-r"); [contradiction |].
  rewrite Habs, Hpre. simpl. auto.
Qed.

(** The two scenarios of the specification: from [/data], [/cd /etc] is
    refused and the process stays where it is; [/cd relative/sub] makes
    the directories and goes there. *)
Example cd_etc_refused :
  fst (handleCd ["/etc"] demo) = Some errorOutside
  /\ os.Getwd (fs (exec (handleCd ["/etc"]) demo)) = "/data".
Proof. split; reflexivity. Qed.

Example cd_relative_sub :
  fst (handleCd ["relative/sub"] demo) = None
  /\ os.Getwd (fs (exec (handleCd ["relative/sub"]) demo)) = "/data/relative/sub"
  /\ os.Stat (fs (exec (handleCd ["relative/sub"]) demo)) "/data/relative/sub"
     = Ok (os.Dir true).
Proof. repeat split; reflexivity. Qed.

(** The test on absolute paths compares strings: a path that starts with
    the root and climbs out of it, and a sibling whose name starts like the
    root, both pass. *)
Example cd_absolute_dotdot :
  os.Getwd (fs (exec (handleCd ["/data/../etc"]) demo)) = "/etc".
Proof. reflexivity. Qed.

Example cd_sibling_prefix :
  os.Getwd (fs (exec (handleCd ["/database"]) demo)) = "/database".
Proof. reflexivity. Qed.

(** C1. The confinement of [/cd] does not hold for relative paths: from the
    initial working directory [/data], [/cd ..] is answered with ["done!"]
    and the process is in [/], which is neither [/data] nor below it. *)
Theorem handleCd_dotdot_leaves_root :
  let w' := exec (handleCd [".."]) demo in
  InitialWorkingDir (cfg demo) = "/data"
  /\ os.Getwd (fs demo) = "/data"
  /\ fst (handleCd [".."] demo) = None
  /\ sent w' = ["done!"]
  /\ os.Getwd (fs w') = "/"
  /\ strings.HasPrefix (os.Getwd (fs w')) (InitialWorkingDir (cfg w')) = false
  /\ ~ under ["data"] (os.cwd (fs w')).
Proof.
  repeat split.
  intros [rest H]. discriminate H.
Qed.

(** ** The directory listing *)

Lemma withSent_same (w : World) : withSent w (sent w) = w.
Proof. destruct w; reflexivity. Qed.

Lemma len_app (a b : string) : len (a ++ b) = len a + len b.
Proof.
  unfold len. rewrite strlen_app. lia.
Qed.

Lemma lsLoop_cons (file : os.FileInfo) (rest : list os.FileInfo)
  (msg : string) (w : World) :
  lsLoop (file :: rest) msg w =
  if len (entryLine file) + len msg >=? 400
  then lsLoop rest (entryLine file) (withSent w (sent w ++ [msg]))
  else lsLoop rest (msg ++ entryLine file) w.
Proof.
  change (lsLoop (file :: rest) msg w)
    with (bind (if len (entryLine file) + len msg >=? 400
                then Reply msg ;; ret ""
                else ret msg)
               (fun m => lsLoop rest (m ++ entryLine file)) w).
  destruct (len (entryLine file) + len msg >=? 400); reflexivity.
Qed.

(** The loop sends some messages and hands the last buffer back; together
    they are a chunking of the entries. *)
Lemma lsLoop_chunked (files : list os.FileInfo) :
  forall (msg : string) (w : World),
  exists (msgs : list string) (final : string),
    lsLoop files msg w = (final, withSent w (sent w ++ msgs))
    /\ Chunked msg (map entryLine files) (msgs ++ [final]).
Proof.
  induction files as [|file rest IH]; intros msg w.
  - exists [], msg. simpl. unfold ret. rewrite app_nil_r, withSent_same.
    split; [reflexivity | constructor].
  - rewrite lsLoop_cons.
    destruct (Z.geb_spec (len (entryLine file) + len msg) 400) as [Hge|Hlt].
    + destruct (IH (entryLine file) (withSent w (sent w ++ [msg])))
        as (msgs & final & Hrun & Hch).
      exists (msg :: msgs), final. split.
      * rewrite Hrun. unfold withSent. simpl. rewrite <- app_assoc.
        reflexivity.
      * apply Chunked_flush; [lia | exact Hch].
    + destruct (IH (msg ++ entryLine file) w) as (msgs & final & Hrun & Hch).
      exists msgs, final. split; [exact Hrun |].
      apply Chunked_append; [lia | exact Hch].
Qed.

(** Chunking loses nothing and keeps the order: the messages, put one
    after the other, are the buffer followed by the entries. *)
Lemma Chunked_concat (buf : string) (es msgs : list string) :
  Chunked buf es msgs ->
  String.concat "" msgs = buf ++ String.concat "" es.
Proof.
  assert (Hcons : forall a l, String.concat "" (a :: l) = a ++ String.concat "" l).
  { intros a [|b l]; simpl; [rewrite app_empty_r |]; reflexivity. }
  induction 1 as [buf | buf e rest msgs Hge Hch IH | buf e rest msgs Hlt Hch IH].
  - simpl. rewrite app_empty_r. reflexivity.
  - rewrite !Hcons, IH. reflexivity.
  - rewrite Hcons, IH, strapp_assoc. reflexivity.
Qed.

(** A message is shorter than 400 bytes unless it is a single piece (the
    header or one entry) that is that long by itself. *)
Lemma Chunked_bounded (pieces : list string) (buf : string)
  (es msgs : list string) :
  Chunked buf es msgs ->
  len buf < 400 \/ In buf pieces ->
  incl es pieces ->
  Forall (fun m => len m < 400 \/ In m pieces) msgs.
Proof.
  induction 1 as [buf | buf e rest msgs Hge Hch IH | buf e rest msgs Hlt Hch IH];
    intros Hbuf Hin.
  - constructor; [exact Hbuf | constructor].
  - constructor; [exact Hbuf |].
    apply IH.
    + right. apply Hin. left. reflexivity.
    + intros x Hx. apply Hin. right. exact Hx.
  - apply IH.
    + left. rewrite len_app. lia.
    + intros x Hx. apply Hin. right. exact Hx.
Qed.

Lemma Chunked_nonempty (buf : string) (es msgs : list string) :
  Chunked buf es msgs -> msgs <> [].
Proof.
  induction 1; congruence.
Qed.

Lemma countFrom_le (s : string) :
  forall skip, (utf8.countFrom skip s <= String.length s)%nat.
Proof.
  induction s as [|c s IH]; intro skip; simpl; [lia |].
  destruct skip as [|k].
  - specialize (IH (utf8.runeWidth c s - 1)%nat). lia.
  - specialize (IH k). lia.
Qed.

(** A string has at most as many runes as bytes. *)
Lemma chars_le_len (s : string) : chars s <= len s.
Proof.
  unfold chars, len, utf8.RuneCountInString.
  pose proof (countFrom_le s 0). lia.
Qed.

(** C8. [handleLs] sends the listing in chunks: starting from the header,
    each rendered entry is appended to the buffer, except that an entry
    which would bring the buffer to 400 bytes or more makes the buffer
    leave as one message first and begins the next buffer; the buffer that
    remains is sent as the last message, so with no entries the header goes
    out alone.  The messages together are the header followed by all the
    entries in order, and a message of 400 bytes or more (a fortiori one of
    400 characters or more) is a single piece that long by itself.  Nothing
    but the chat changes. *)
Theorem handleLs_chunked (ReadDir : string -> list os.FileInfo + error)
  (w : World) (files : list os.FileInfo) :
  ReadDir (os.Getwd (fs w)) = inl files ->
  let header := lsHeader (os.Getwd (fs w)) in
  let entries := map entryLine files in
  exists msgs,
    exec (handleLs ReadDir) w = withSent w (sent w ++ msgs)
    /\ Chunked header entries msgs
    /\ msgs <> []
    /\ (files = [] -> msgs = [header])
    /\ String.concat "" msgs = header ++ String.concat "" entries
    /\ Forall (fun m => len m < 400 \/ In m (header :: entries)) msgs
    /\ Forall (fun m => chars m < 400 \/ In m (header :: entries)) msgs.
Proof.
  intros Hread header entries.
  destruct (lsLoop_chunked files header w) as (msgs & final & Hrun & Hch).
  exists (msgs ++ [final])%list.
  assert (Hexec : exec (handleLs ReadDir) w
                  = withSent w (sent w ++ msgs ++ [final])%list).
  { unfold handleLs, exec, bind, mustGetWd. rewrite Hread.
    fold (lsHeader (os.Getwd (fs w))). fold header. rewrite Hrun.
    unfold Reply, withSent. simpl. rewrite <- app_assoc. reflexivity. }
  split; [exact Hexec |].
  split; [exact Hch |].
  split; [eapply Chunked_nonempty; exact Hch |].
  split.
  { intro Hnil. subst files. inversion Hch. reflexivity. }
  split; [apply Chunked_concat; exact Hch |].
  assert (Hbytes : Forall (fun m => len m < 400 \/ In m (header :: entries))
                     (msgs ++ [final])%list).
  { apply (Chunked_bounded (header :: entries) header entries); auto.
    - right. left. reflexivity.
    - intros x Hx. right. exact Hx. }
  split; [exact Hbytes |].
  eapply Forall_impl; [| exact Hbytes].
  intros m [Hm|Hm]; [left | right; exact Hm].
  pose proof (chars_le_len m). lia.
Qed.

Lemma handleLs_chunked_witness :
  exists msgs,
    exec (handleLs (fun _ => inl [os.mkFileInfo "a.txt" false 5])) demo
    = withSent demo (sent demo ++ msgs)
    /\ Chunked (lsHeader (os.Getwd (fs demo)))
         (map entryLine [os.mkFileInfo "a.txt" false 5]) msgs.
Proof.
  destruct (handleLs_chunked (fun _ => inl [os.mkFileInfo "a.txt" false 5])
              demo [os.mkFileInfo "a.txt" false 5] eq_refl)
    as (msgs & H1 & H2 & _).
  exists msgs. split; assumption.
Defined.

(** ** Paths as strings and as lists of names *)

Lemma prefix_cons (a b : ascii) (s1 s2 : string) :
  String.prefix (String a s1) (String b s2)
  = if ascii_dec a b then String.prefix s1 s2 else false.
Proof. reflexivity. Qed.

Lemma prefix_refl (s : string) : String.prefix s s = true.
Proof.
  induction s as [|c s IH]; [reflexivity |].
  rewrite prefix_cons. destruct (ascii_dec c c); congruence.
Qed.


Lemma IsAbs_slash (r : string) : filepath.IsAbs (String "/" r) = true.
Proof.
  unfold filepath.IsAbs, strings.HasPrefix.
  change "/" with (String "/" ""). rewrite prefix_cons.
  destruct (ascii_dec "/"%char "/"%char); [| congruence].
  destruct r; reflexivity.
Qed.

Lemma isName_noSlash (e : string) : isName e = true -> noSlash e = true.
Proof.
  unfold isName. rewrite !andb_true_iff. tauto.
Qed.

Lemma isName_inv (e : string) :
  isName e = true ->
  noSlash e = true /\ String.eqb e "" = false /\ String.eqb e "." = false
  /\ String.eqb e ".." = false.
Proof.
  unfold isName. rewrite !andb_true_iff, !negb_true_iff. tauto.
Qed.


Lemma SplitSlash_noSlash (s : string) :
  Forall (fun e => noSlash e = true) (strings.SplitSlash s).
Proof.
  induction s as [|c s IH]; simpl.
  - repeat constructor.
  - destruct (Ascii.eqb c "/") eqn:Hc.
    + constructor; [reflexivity | exact IH].
    + destruct (strings.SplitSlash s) as [|x xs].
      * repeat constructor. simpl. rewrite Hc. reflexivity.
      * inversion IH; subst. constructor; [| assumption].
        simpl. rewrite Hc. simpl. assumption.
Qed.

(** A piece without a slash, followed by a slash, is the first element. *)
Lemma SplitSlash_element (x r : string) :
  noSlash x = true ->
  strings.SplitSlash (x ++ String "/" r) = x :: strings.SplitSlash r.
Proof.
  induction x as [|c x IH]; simpl; intro H.
  - reflexivity.
  - apply andb_true_iff in H as [Hc Hx]. apply negb_true_iff in Hc.
    rewrite Hc, (IH Hx). reflexivity.
Qed.

Lemma SplitSlash_single (x : string) :
  noSlash x = true -> strings.SplitSlash x = [x].
Proof.
  induction x as [|c x IH]; simpl; intro H.
  - reflexivity.
  - apply andb_true_iff in H as [Hc Hx]. apply negb_true_iff in Hc.
    rewrite Hc, (IH Hx). reflexivity.
Qed.

Lemma SplitSlash_JoinSlash (a : string) (l : list string) :
  Forall (fun e => noSlash e = true) (a :: l) ->
  strings.SplitSlash (strings.JoinSlash (a :: l)) = a :: l.
Proof.
  revert a. induction l as [|b l IH]; intros a H; inversion H; subst.
  - apply SplitSlash_single. assumption.
  - change (strings.JoinSlash (a :: b :: l))
      with (a ++ String "/" (strings.JoinSlash (b :: l))).
    rewrite SplitSlash_element by assumption.
    rewrite IH by assumption. reflexivity.
Qed.

Lemma SplitSlash_render (q : os.path) :
  Forall (fun e => isName e = true) q ->
  strings.SplitSlash (os.render q) = "" :: elems q.
Proof.
  intro H. unfold os.render. simpl.
  destruct q as [|a l]; [reflexivity |].
  rewrite SplitSlash_JoinSlash; [reflexivity |].
  eapply Forall_impl; [| exact H]. apply isName_noSlash.
Qed.

Lemma render_not_empty (q : os.path) : String.eqb (os.render q) "" = false.
Proof. reflexivity. Qed.

Lemma render_abs (q : os.path) : filepath.IsAbs (os.render q) = true.
Proof. apply IsAbs_slash. Qed.





Lemma Forall_removelast {A} (P : A -> Prop) (l : list A) :
  Forall P l -> Forall P (removelast l).
Proof.
  induction 1 as [|a l Ha Hl IH]; simpl; [constructor |].
  destruct l; [constructor |]. constructor; assumption.
Qed.




(** ** The file system *)

Lemma path_eqb_spec (p q : os.path) : reflect (p = q) (os.path_eqb p q).
Proof.
  revert q. induction p as [|a p IH]; intros [|b q]; simpl;
    try (constructor; congruence).
  destruct (String.eqb_spec a b); simpl.
  - destruct (IH q); constructor; congruence.
  - constructor; congruence.
Qed.

Lemma update_same (t : os.tree) (p : os.path) (n : option os.node) :
  os.update t p n p = n.
Proof.
  unfold os.update. destruct (path_eqb_spec p p); congruence.
Qed.

Lemma update_other (t : os.tree) (p q : os.path) (n : option os.node) :
  q <> p -> os.update t p n q = t q.
Proof.
  intro H. unfold os.update. destruct (path_eqb_spec q p); congruence.
Qed.

Lemma extends_refl (t : os.tree) : extends t t.
Proof. intros p x H. exact H. Qed.

Lemma extends_trans (t1 t2 t3 : os.tree) :
  extends t1 t2 -> extends t2 t3 -> extends t1 t3.
Proof. intros H12 H23 p x H. apply H23, H12, H. Qed.

(** Writing where no directory is keeps all directories. *)
Lemma extends_update (t : os.tree) (p : os.path) (n : option os.node) :
  (forall x, t p <> Some (os.Dir x)) -> extends t (os.update t p n).
Proof.
  intros Hp q x Hq.
  destruct (path_eqb_spec q p) as [->|Hne].
  - exfalso. apply (Hp x). exact Hq.
  - rewrite update_other by exact Hne. exact Hq.
Qed.

Lemma walk_name (t : os.tree) (cur : os.path) (e : string) (es : list string) :
  isName e = true ->
  os.walk t cur (e :: es) =
  match t cur with
  | None => Err ENOENT
  | Some (os.File _) => Err ENOTDIR
  | Some (os.Dir x) =>
      if negb x then Err EACCES else os.walk t (cur ++ [e])%list es
  end.
Proof.
  intro H. apply isName_inv in H as (_ & H0 & H1 & H2).
  simpl. unfold os.isDot, os.isDotDot. rewrite H0, H1, H2. reflexivity.
Qed.

Lemma walk_names_ok (t : os.tree) (es : list string) :
  Forall (fun e => isName e = true) es ->
  forall cur p, os.walk t cur es = Ok p -> p = (cur ++ es)%list.
Proof.
  induction 1 as [|e es He Hes IH]; intros cur p Hw.
  - simpl in Hw. inversion Hw. rewrite app_nil_r. reflexivity.
  - rewrite walk_name in Hw by exact He.
    destruct (t cur) as [[[|]|]|]; simpl in Hw; try discriminate.
    apply IH in Hw. rewrite <- app_assoc in Hw. exact Hw.
Qed.


Lemma walk_names_dirs (t : os.tree) (es : list string) :
  Forall (fun e => isName e = true) es ->
  forall cur,
    (forall k, (k < List.length es)%nat ->
               t (cur ++ firstn k es)%list = Some (os.Dir true)) ->
    os.walk t cur es = Ok (cur ++ es)%list.
Proof.
  induction 1 as [|e es He Hes IH]; intros cur Hdirs.
  - simpl. rewrite app_nil_r. reflexivity.
  - rewrite walk_name by exact He.
    pose proof (Hdirs 0%nat ltac:(simpl; lia)) as H0.
    simpl in H0. rewrite app_nil_r in H0. rewrite H0. simpl.
    rewrite IH.
    + rewrite <- app_assoc. reflexivity.
    + intros k Hk. rewrite <- app_assoc. apply (Hdirs (S k)). simpl. lia.
Qed.

(** Resolving the rendering of a location: the root must be a directory,
    then the names are walked from there. *)
Lemma resolve_render (s : os.state) (q : os.path) :
  Forall (fun e => isName e = true) q ->
  os.resolve s (os.render q) =
  match os.files s [] with
  | None => Err ENOENT
  | Some (os.File _) => Err ENOTDIR
  | Some (os.Dir _) => match q with
                       | [] => Ok []
                       | _ => os.walk (os.files s) [] q
                       end
  end.
Proof.
  intro H. unfold os.resolve, os.start.
  rewrite render_not_empty, render_abs, SplitSlash_render by exact H.
  destruct q as [|a l]; simpl; destruct (os.files s []) as [[x|]|]; reflexivity.
Qed.

Lemma resolve_render_ok (s : os.state) (q p : os.path) :
  Forall (fun e => isName e = true) q ->
  os.resolve s (os.render q) = Ok p -> p = q.
Proof.
  intros H Hr. rewrite resolve_render in Hr by exact H.
  destruct (os.files s []) as [[x|]|]; try discriminate.
  destruct q as [|a l]; [inversion Hr; reflexivity |].
  apply walk_names_ok in Hr; assumption.
Qed.






Lemma Create_effect (s s' : os.state) (p : string) (r : os.path + error) :
  os.Create s p = (s', r) ->
  (s' = s /\ exists e, r = inr e)
  \/ exists q,
       r = inl q
       /\ os.resolve s p = Ok q
       /\ (forall x, os.files s q <> Some (os.Dir x))
       /\ s' = os.mkState (os.cwd s)
                 (os.update (os.files s) q (Some (os.File ""))).
Proof.
  unfold os.Create.
  destruct (os.resolve s p) as [q|e].
  - destruct (os.files s q) as [[x|data]|] eqn:Hq; intro H; inversion H; subst.
    + left. eauto.
    + right. exists q. repeat split; congruence.
    + right. exists q. repeat split; congruence.
  - intro H; inversion H; subst. left. eauto.
Qed.

(** What a download leaves behind: nothing, or a regular file with some
    of the bytes at the place its local name resolves to; all of the bytes
    if it succeeds. *)
Lemma Download_effect (s s1 : os.state) (f : tele.File) (p : string)
  (err : option error) :
  tele.Download s f p = (s1, err) ->
  (s1 = s /\ err <> None)
  \/ exists q data,
       os.resolve s p = Ok q
       /\ (forall x, os.files s q <> Some (os.Dir x))
       /\ s1 = os.mkState (os.cwd s)
                 (os.update (os.update (os.files s) q (Some (os.File "")))
                    q (Some (os.File data)))
       /\ (err = None -> tele.remote f = tele.Complete data).
Proof.
  unfold tele.Download.
  destruct (tele.remote f) as [why|written why|content].
  - intro H; inversion H; subst. left. split; congruence.
  - destruct (os.Create s p) as [s' r] eqn:Hc.
    apply Create_effect in Hc as [[-> [e ->]]|(q & -> & Hr & Hq & ->)];
      intro H; inversion H; subst.
    + left. split; congruence.
    + right. exists q, written. repeat split; auto. discriminate.
  - destruct (os.Create s p) as [s' r] eqn:Hc.
    apply Create_effect in Hc as [[-> [e ->]]|(q & -> & Hr & Hq & ->)];
      intro H; inversion H; subst.
    + left. split; congruence.
    + right. exists q, content. repeat split; auto.
Qed.

Lemma Rename_effect (s s2 : os.state) (old new : string) (err : option error) :
  os.Rename s old new = (s2, err) ->
  (s2 = s /\ err <> None)
  \/ (err = None
      /\ exists qo qn data,
           os.resolve s old = Ok qo
           /\ os.resolve s new = Ok qn
           /\ os.files s qo = Some (os.File data)
           /\ (forall x, os.files s qn <> Some (os.Dir x))
           /\ s2 = os.mkState (os.cwd s)
                     (os.update (os.update (os.files s) qo None)
                        qn (Some (os.File data)))).
Proof.
  unfold os.Rename.
  destruct (os.resolve s old) as [qo|e].
  2:{ intro H; inversion H; subst. left. split; congruence. }
  destruct (os.resolve s new) as [qn|e].
  2:{ intro H; inversion H; subst. left. split; congruence. }
  destruct (os.files s qo) as [[x|data]|] eqn:Hqo.
  1,3: intro H; inversion H; subst; left; split; congruence.
  destruct (os.files s qn) as [[x|data']|] eqn:Hqn;
    intro H; inversion H; subst.
  - left. split; congruence.
  - right. split; [reflexivity |]. exists qo, qn, data.
    repeat split; congruence.
  - right. split; [reflexivity |]. exists qo, qn, data.
    repeat split; congruence.
Qed.

Lemma Download_extends (s s1 : os.state) (f : tele.File) (p : string)
  (err : option error) :
  tele.Download s f p = (s1, err) ->
  os.cwd s1 = os.cwd s /\ extends (os.files s) (os.files s1).
Proof.
  intro H. apply Download_effect in H
    as [[-> _]|(q & data & Hr & Hq & -> & _)].
  - split; [reflexivity | apply extends_refl].
  - split; [reflexivity |]. simpl.
    eapply extends_trans; apply extends_update.
    + exact Hq.
    + intro x. rewrite update_same. discriminate.
Qed.

Lemma Rename_extends (s s2 : os.state) (old new : string) (err : option error) :
  os.Rename s old new = (s2, err) ->
  os.cwd s2 = os.cwd s /\ extends (os.files s) (os.files s2).
Proof.
  intro H. apply Rename_effect in H
    as [[-> _]|(_ & qo & qn & data & _ & _ & Hqo & Hqn & ->)].
  - split; [reflexivity | apply extends_refl].
  - split; [reflexivity |]. simpl.
    eapply extends_trans; apply extends_update.
    + intro x. rewrite Hqo. discriminate.
    + intro x. destruct (path_eqb_spec qn qo) as [->|Hne].
      * rewrite update_same. discriminate.
      * rewrite update_other by exact Hne. apply Hqn.
Qed.

(** ** One download *)

Ltac run_monad :=
  repeat (progress
    (unfold logEverywhere, AddUint32, LoadUint32;
     unfold exec, bind, mustGetWd, sys, logPrintln, Reply,
       getStats, putStats, getCfg, ret;
     cbv beta;
     cbn [fs stats cfg sent logged goroutines fst snd
          DowloadsOk DownloadsErr DownloadsPending])).

(** The file system and the counters after [downloadFileInternal], in
    terms of what [Download] and [Rename] answer. *)
Lemma downloadFileInternal_exec (w : World) (f : tele.File) (name : string) :
  let fpath := filepath.Join (os.Getwd (fs w)) name in
  let tmp := fpath ++ ".tmp" in
  let w' := exec (downloadFileInternal f name) w in
  cfg w' = cfg w
  /\ goroutines w' = goroutines w
  /\ match tele.Download (fs w) f tmp with
     | (s1, Some _) =>
         fs w' = s1
         /\ stats w' = mkStats (DowloadsOk (stats w))
                         (atomic.AddUint32 (DownloadsErr (stats w)) 1)
                         (DownloadsPending (stats w))
     | (s1, None) =>
         match os.Rename s1 tmp fpath with
         | (s2, Some _) =>
             fs w' = s2
             /\ stats w' = mkStats (DowloadsOk (stats w))
                             (atomic.AddUint32 (DownloadsErr (stats w)) 1)
                             (DownloadsPending (stats w))
         | (s2, None) =>
             fs w' = s2
             /\ stats w' = mkStats (atomic.AddUint32 (DowloadsOk (stats w)) 1)
                             (DownloadsErr (stats w))
                             (DownloadsPending (stats w))
         end
     end.
Proof.
  intros fpath tmp w'. subst w'. unfold downloadFileInternal.
  run_monad.
  change (filepath.Join (os.Getwd (fs w)) name ++ ".tmp") with tmp.
  change (filepath.Join (os.Getwd (fs w)) name) with fpath.
  clearbody tmp. clearbody fpath.
  destruct (tele.Download (fs w) f tmp) as [s1 [e|]].
  - run_monad. auto.
  - run_monad. destruct (os.Rename s1 tmp fpath) as [s2 [e|]]; run_monad; auto.
Qed.




Lemma AddUint32_succ (x : Z) :
  0 <= x < 2 ^ 32 - 1 -> atomic.AddUint32 x 1 = x + 1.
Proof.
  intro H. unfold atomic.AddUint32, atomic.wrap32.
  apply Z.mod_small. lia.
Qed.


(** ** Directories stay *)

Lemma mkdirs_extends (es : list string) :
  forall (t : os.tree) (cur : os.path), extends t (fst (os.mkdirs t cur es)).
Proof.
  induction es as [|e es IH]; intros t cur; simpl.
  - destruct (t cur) as [[x|data]|]; apply extends_refl.
  - destruct (t cur) as [[x|data]|]; try apply extends_refl.
    destruct (String.eqb e ""); [apply IH |].
    destruct (negb x); [apply extends_refl |].
    destruct (os.isDot e); [apply IH |].
    destruct (os.isDotDot e); [apply IH |].
    destruct (t (cur ++ [e])%list) as [n|] eqn:Hn; [apply IH |].
    eapply extends_trans; [| apply IH].
    apply extends_update. intro y. rewrite Hn. discriminate.
Qed.

Lemma MkdirAll_extends (s : os.state) (p : string) :
  extends (os.files s) (os.files (fst (os.MkdirAll s p))).
Proof.
  unfold os.MkdirAll.
  destruct (String.eqb p ""); [apply extends_refl |].
  pose proof (mkdirs_extends (strings.SplitSlash p) (os.files s) (os.start s p))
    as H.
  destruct (os.mkdirs _ _ _) as [t [e|]]; exact H.
Qed.

Lemma Chdir_files (s : os.state) (p : string) :
  os.files (fst (os.Chdir s p)) = os.files s.
Proof.
  unfold os.Chdir.
  destruct (os.resolve s p) as [q|e]; [| reflexivity].
  destruct (os.files s q) as [[[|]|]|]; reflexivity.
Qed.

(** Making the directories of a path that is all there changes nothing. *)
Lemma mkdirs_existing (t : os.tree) (es : list string) :
  Forall (fun e => isName e = true) es ->
  forall cur,
    (forall k, t (cur ++ firstn k es)%list = Some (os.Dir true)) ->
    os.mkdirs t cur es = (t, None).
Proof.
  induction 1 as [|e es He Hes IH]; intros cur Hdirs.
  - pose proof (Hdirs 0%nat) as H0. simpl in H0. rewrite app_nil_r in H0.
    simpl. rewrite H0. reflexivity.
  - pose proof (Hdirs 0%nat) as H0. simpl in H0. rewrite app_nil_r in H0.
    pose proof (Hdirs 1%nat) as H1. simpl in H1.
    apply isName_inv in He as (_ & E0 & E1 & E2).
    simpl. unfold os.isDot, os.isDotDot. rewrite H0, E0, E1, E2, H1. simpl.
    apply IH. intro k. rewrite <- app_assoc. apply (Hdirs (S k)).
Qed.

(** ** What a command changes *)

Lemma noticesIn_app (l m : list string) :
  noticesIn (l ++ m) = (noticesIn l + noticesIn m)%nat.
Proof.
  unfold noticesIn. rewrite filter_app, List.length_app. reflexivity.
Qed.

Lemma otherStart_not_notice (s : string) :
  otherStart s -> String.eqb allFinished s = false.
Proof.
  intros (c & r & -> & Hc). unfold allFinished.
  apply String.eqb_neq. intro H. inversion H. congruence.
Qed.

Lemma otherStart_app (s t : string) : otherStart s -> otherStart (s ++ t).
Proof.
  intros (c & r & -> & Hc). exists c, (r ++ t). split; [reflexivity | exact Hc].
Qed.

Lemma otherStart_entryLine (file : os.FileInfo) : otherStart (entryLine file).
Proof.
  unfold entryLine, fmt.c.
  destruct (os.IsDir file); eexists; eexists; (split; [reflexivity | discriminate]).
Qed.

Lemma noticesIn_cons (m : string) (l : list string) :
  noticesIn (m :: l)
  = ((if String.eqb allFinished m then 1 else 0) + noticesIn l)%nat.
Proof.
  unfold noticesIn. cbn [filter].
  destruct (String.eqb allFinished m); reflexivity.
Qed.

Lemma noticesIn_snoc (l : list string) (m : string) :
  noticesIn (l ++ [m])
  = (noticesIn l + if String.eqb allFinished m then 1 else 0)%nat.
Proof.
  rewrite noticesIn_app, noticesIn_cons.
  change (noticesIn []) with 0%nat. lia.
Qed.

Lemma Chunked_no_notice (buf : string) (es msgs : list string) :
  Chunked buf es msgs ->
  otherStart buf -> Forall otherStart es -> noticesIn msgs = 0%nat.
Proof.
  induction 1 as [buf | buf e rest msgs Hge Hch IH | buf e rest msgs Hlt Hch IH];
    intros Hbuf Hes.
  - rewrite noticesIn_cons, otherStart_not_notice by exact Hbuf. reflexivity.
  - inversion Hes; subst.
    rewrite noticesIn_cons, otherStart_not_notice by exact Hbuf.
    rewrite IH by assumption. reflexivity.
  - inversion Hes; subst. apply IH; [| assumption].
    apply otherStart_app. exact Hbuf.
Qed.

(** A command or an arriving attachment leaves the configuration and the
    counters alone, removes no directory, starts goroutines at most, and
    does not tell the chat that all downloads have finished. *)
Lemma command_frame (e : event) (w : World) :
  (forall i, e <> Run i) ->
  cfg (deliver e w) = cfg w
  /\ stats (deliver e w) = stats w
  /\ extends (os.files (fs w)) (os.files (fs (deliver e w)))
  /\ (exists extra, goroutines (deliver e w) = (goroutines w ++ extra)%list
                    /\ fresh extra)
  /\ finishedNotices (deliver e w) = finishedNotices w.
Proof.
  intro Hrun.
  assert (Hnil : forall l : list goroutine,
             exists extra, l = (l ++ extra)%list /\ fresh extra).
  { intro l. exists []. rewrite app_nil_r. split; [reflexivity | constructor]. }
  assert (Hone : forall (l : list string) (m : string),
             String.eqb allFinished m = false ->
             noticesIn (l ++ [m]) = noticesIn l).
  { intros l m Hm. rewrite noticesIn_snoc, Hm. lia. }
  destruct e as [chat| |ReadDir|args|uptime|doc|p|v|i];
    [ | | | | | | | | exfalso; apply (Hrun i); reflexivity ];
    unfold deliver, finishedNotices.
  - (* /help *)
    unfold handleHelp. run_monad.
    repeat split; auto using extends_refl.
  - (* /pwd *)
    unfold handlePwd. run_monad.
    repeat split; auto using extends_refl.
  - (* /ls *)
    unfold handleLs. run_monad.
    destruct (ReadDir (os.Getwd (fs w))) as [files|err].
    + destruct (lsLoop_chunked files (lsHeader (os.Getwd (fs w))) w)
        as (msgs & final & Hloop & Hch).
      unfold lsHeader in Hloop. rewrite Hloop. unfold withSent.
      cbn [fs stats cfg sent logged goroutines fst snd].
      repeat split; auto using extends_refl.
      rewrite <- app_assoc, noticesIn_app.
      rewrite (Chunked_no_notice _ _ _ Hch); [lia | |].
      * unfold lsHeader. eexists; eexists. split; [reflexivity | discriminate].
      * apply Forall_forall. intros x Hx. apply in_map_iff in Hx as (file & <- & _).
        apply otherStart_entryLine.
    + cbn [fs stats cfg sent logged goroutines fst snd].
      repeat split; auto using extends_refl.
  - (* /cd *)
    unfold handleCd.
    destruct args as [|arg [|arg' args]];
      [ run_monad; repeat split; auto using extends_refl
      | | run_monad; repeat split; auto using extends_refl ].
    run_monad.
    set (wd := if String.eqb arg "-r" then InitialWorkingDir (cfg w) else arg).
    destruct (filepath.IsAbs wd && negb (strings.HasPrefix wd (InitialWorkingDir (cfg w)))).
    { run_monad. repeat split; auto using extends_refl. }
    run_monad.
    pose proof (MkdirAll_extends (fs w) wd) as Hmk.
    destruct (os.MkdirAll (fs w) wd) as [s1 [e1|]].
    { run_monad. repeat split; auto. }
    run_monad.
    pose proof (Chdir_files s1 wd) as Hch.
    destruct (os.Chdir s1 wd) as [s2 [e2|]]; run_monad; cbn [fst] in *;
      rewrite Hch; repeat split; auto.
  - (* /stats *)
    unfold handleStats, LoadUint32. run_monad.
    repeat split; auto using extends_refl.
  - (* a document *)
    unfold handleOnDocument, spawn. run_monad.
    destruct (String.eqb (tele.FileName doc) ""); run_monad;
      repeat split; auto using extends_refl;
      eexists; (split; [reflexivity | repeat constructor]).
  - (* a photo *)
    unfold handleOnPhoto, spawn. run_monad.
    repeat split; auto using extends_refl.
    eexists; (split; [reflexivity | repeat constructor]).
  - (* a video *)
    unfold handleOnVideo, spawn. run_monad.
    destruct (negb (String.eqb (tele.MIME v) "video/mp4")); run_monad;
      repeat split; auto using extends_refl;
      try (eexists; (split; [reflexivity | repeat constructor])).
Qed.

(** ** What a step of a goroutine changes *)

Lemma report_sent (pending : Z) (w : World) :
  snd (report pending w)
  = mkWorld (cfg w) (stats w) (fs w) (sent w ++ reportMessages pending)
      (logged w ++ reportMessages pending) (goroutines w).
Proof.
  unfold report, reportMessages.
  destruct (pending =? 0); [run_monad; reflexivity |].
  destruct (pending mod 5 =? 0); run_monad; [reflexivity |].
  rewrite !app_nil_r. destruct w; reflexivity.
Qed.

Lemma reportMessages_notices (pending : Z) :
  noticesIn (reportMessages pending) = if pending =? 0 then 1%nat else 0%nat.
Proof.
  unfold reportMessages.
  destruct (pending =? 0); [reflexivity |].
  destruct (pending mod 5 =? 0); reflexivity.
Qed.

(** Step by step: where the goroutine stands next, what has happened to
    the counters and what the chat has been told. *)
Lemma stepAt_frame (f : tele.File) (name : string) (at_ : pc) (w : World) :
  let next := fst (stepAt f name at_ w) in
  let w' := snd (stepAt f name at_ w) in
  cfg w' = cfg w
  /\ goroutines w' = goroutines w
  /\ extends (os.files (fs w)) (os.files (fs w'))
  /\ match at_ with
     | Claim =>
         next = Transfer
         /\ stats w' = mkStats (DowloadsOk (stats w)) (DownloadsErr (stats w))
                         (atomic.AddUint32 (DownloadsPending (stats w)) 1)
         /\ sent w' = sent w
     | Transfer =>
         (next = CountErr \/ exists fpath tmp, next = Promote fpath tmp)
         /\ stats w' = stats w
         /\ finishedNotices w' = finishedNotices w
     | Promote _ _ =>
         (next = CountErr \/ next = CountOk)
         /\ stats w' = stats w
         /\ finishedNotices w' = finishedNotices w
     | CountErr =>
         next = Release
         /\ stats w' = mkStats (DowloadsOk (stats w))
                         (atomic.AddUint32 (DownloadsErr (stats w)) 1)
                         (DownloadsPending (stats w))
         /\ sent w' = sent w
     | CountOk =>
         next = Release
         /\ stats w' = mkStats (atomic.AddUint32 (DowloadsOk (stats w)) 1)
                         (DownloadsErr (stats w)) (DownloadsPending (stats w))
         /\ sent w' = sent w
     | Release =>
         next = Report (atomic.AddUint32 (DownloadsPending (stats w))
                          atomic.allOnes)
         /\ stats w' = mkStats (DowloadsOk (stats w)) (DownloadsErr (stats w))
                         (atomic.AddUint32 (DownloadsPending (stats w))
                            atomic.allOnes)
         /\ sent w' = sent w
     | Report pending =>
         next = Done
         /\ stats w' = stats w
         /\ sent w' = (sent w ++ reportMessages pending)%list
     | Done => next = Done /\ w' = w
     end.
Proof.
  assert (Hone : forall (l : list string) (m : string),
             String.eqb allFinished m = false ->
             noticesIn (l ++ [m]) = noticesIn l).
  { intros l m Hm. rewrite noticesIn_snoc, Hm. lia. }
  destruct at_ as [| |fpath tmp| | | |pending|]; unfold stepAt, finishedNotices.
  - run_monad. repeat split; auto using extends_refl.
  - run_monad.
    set (tmp := filepath.Join (os.Getwd (fs w)) name ++ ".tmp").
    destruct (tele.Download (fs w) f tmp) as [s1 err] eqn:HD.
    apply Download_extends in HD as [_ Hext].
    destruct err as [e|]; run_monad; repeat split; eauto.
  - run_monad.
    destruct (os.Rename (fs w) tmp fpath) as [s2 err] eqn:HR.
    apply Rename_extends in HR as [_ Hext].
    destruct err as [e|]; run_monad; repeat split; eauto.
  - run_monad. repeat split; auto using extends_refl.
  - run_monad. repeat split; auto using extends_refl.
  - run_monad. repeat split; auto using extends_refl.
  - unfold bind. pose proof (report_sent pending w) as Hr.
    destruct (report pending w) as [[] w1]. simpl in Hr. subst w1.
    unfold ret. cbn [fst snd cfg stats fs sent goroutines].
    repeat split; auto using extends_refl.
  - unfold ret. cbn [fst snd]. repeat split; auto using extends_refl.
Qed.

Lemma schedule_idle (i : nat) (w : World) :
  nth_error (goroutines w) i = None -> deliver (Run i) w = w.
Proof.
  intro H. unfold deliver, exec, schedule. rewrite H. reflexivity.
Qed.

Lemma schedule_step (i : nat) (w : World) (g : goroutine) :
  nth_error (goroutines w) i = Some g ->
  let next := fst (stepAt (file g) (fname g) (at_pc g) w) in
  let w' := snd (stepAt (file g) (fname g) (at_pc g) w) in
  deliver (Run i) w
  = mkWorld (cfg w') (stats w') (fs w') (sent w') (logged w')
      (replace i (mkGoroutine (file g) (fname g) next) (goroutines w')).
Proof.
  intro H. unfold deliver, exec, schedule. rewrite H.
  destruct (stepAt (file g) (fname g) (at_pc g) w) as [next w']. reflexivity.
Qed.

(** ** Counting goroutines *)

Lemma cnt_cons (p : goroutine -> bool) (g : goroutine) (l : list goroutine) :
  cnt p (g :: l) = (one (p g) + cnt p l)%nat.
Proof.
  unfold cnt, one. simpl. destruct (p g); reflexivity.
Qed.

Lemma cnt_app (p : goroutine -> bool) (l m : list goroutine) :
  cnt p (l ++ m) = (cnt p l + cnt p m)%nat.
Proof.
  unfold cnt. rewrite filter_app, List.length_app. reflexivity.
Qed.

Lemma cnt_replace (p : goroutine -> bool) (l : list goroutine) :
  forall (i : nat) (g g' : goroutine),
    nth_error l i = Some g ->
    (cnt p (replace i g' l) + one (p g) = cnt p l + one (p g'))%nat.
Proof.
  induction l as [|a l IH]; intros [|i] g g' H; simpl in H; try discriminate.
  - inversion H; subst. simpl. rewrite !cnt_cons. lia.
  - simpl. rewrite !cnt_cons. specialize (IH i g g' H). lia.
Qed.

Lemma replace_length {A} (l : list A) :
  forall (i : nat) (x : A), List.length (replace i x l) = List.length l.
Proof.
  induction l as [|a l IH]; intros [|i] x; simpl; auto.
Qed.

Lemma cnt_le_length (p : goroutine -> bool) (l : list goroutine) :
  (cnt p l <= List.length l)%nat.
Proof.
  unfold cnt. apply filter_length_le.
Qed.

Lemma cnt_fresh (p : goroutine -> bool) (extra : list goroutine) :
  p (mkGoroutine (tele.mkFile "" (tele.Unreachable "")) "" Claim) = false ->
  (forall g g', at_pc g = at_pc g' -> p g = p g') ->
  fresh extra -> cnt p extra = 0%nat.
Proof.
  intros Hp Hpc. induction 1 as [|g extra Hg Hextra IH]; [reflexivity |].
  rewrite cnt_cons, IH.
  rewrite (Hpc g (mkGoroutine (tele.mkFile "" (tele.Unreachable "")) "" Claim))
    by exact Hg.
  rewrite Hp. reflexivity.
Qed.

Lemma count_cnt (p : goroutine -> bool) (w : World) :
  count p w = Z.of_nat (cnt p (goroutines w)).
Proof. reflexivity. Qed.

(** ** The counters and the goroutines *)

Lemma wrap32_succ (c : Z) :
  atomic.AddUint32 (atomic.wrap32 c) 1 = atomic.wrap32 (c + 1).
Proof.
  unfold atomic.AddUint32, atomic.wrap32.
  apply Z.add_mod_idemp_l. lia.
Qed.

Lemma wrap32_pred (c : Z) :
  atomic.AddUint32 (atomic.wrap32 c) atomic.allOnes = atomic.wrap32 (c - 1).
Proof.
  unfold atomic.AddUint32, atomic.wrap32, atomic.allOnes.
  rewrite Z.add_mod_idemp_l by lia.
  replace (c + (2 ^ 32 - 1)) with (c - 1 + 1 * 2 ^ 32) by lia.
  apply Z.mod_add. lia.
Qed.

Lemma wrap32_small (c : Z) : 0 <= c < 2 ^ 32 -> atomic.wrap32 c = c.
Proof.
  intro H. apply Z.mod_small. exact H.
Qed.

Lemma schedule_step_facts (i : nat) (w : World) (g : goroutine) :
  nth_error (goroutines w) i = Some g ->
  let next := fst (stepAt (file g) (fname g) (at_pc g) w) in
  let w' := snd (stepAt (file g) (fname g) (at_pc g) w) in
  cfg (deliver (Run i) w) = cfg w
  /\ stats (deliver (Run i) w) = stats w'
  /\ sent (deliver (Run i) w) = sent w'
  /\ fs (deliver (Run i) w) = fs w'
  /\ goroutines (deliver (Run i) w)
     = replace i (mkGoroutine (file g) (fname g) next) (goroutines w).
Proof.
  intros H next w'.
  rewrite (schedule_step i w g H). fold next. fold w'.
  destruct (stepAt_frame (file g) (fname g) (at_pc g) w) as (Hc & Hg & _).
  fold w' in Hc, Hg. cbn [cfg stats sent fs goroutines].
  rewrite Hg. auto.
Qed.

Lemma count_step (q : pc -> bool) (i : nat) (w : World) (g : goroutine) :
  nth_error (goroutines w) i = Some g ->
  let next := fst (stepAt (file g) (fname g) (at_pc g) w) in
  count (fun g => q (at_pc g)) (deliver (Run i) w) + Z.of_nat (one (q (at_pc g)))
  = count (fun g => q (at_pc g)) w + Z.of_nat (one (q next)).
Proof.
  intros H next.
  destruct (schedule_step_facts i w g H) as (_ & _ & _ & _ & Hg).
  fold next in Hg. rewrite !count_cnt, Hg.
  pose proof (cnt_replace (fun g => q (at_pc g)) (goroutines w) i g
                (mkGoroutine (file g) (fname g) next) H) as Hc.
  cbn [at_pc] in Hc. lia.
Qed.

Lemma count_command (p : goroutine -> bool) (e : event) (w : World) :
  (forall i, e <> Run i) ->
  p (mkGoroutine (tele.mkFile "" (tele.Unreachable "")) "" Claim) = false ->
  (forall g g', at_pc g = at_pc g' -> p g = p g') ->
  count p (deliver e w) = count p w.
Proof.
  intros He Hp Hpc.
  destruct (command_frame e w He) as (_ & _ & _ & (extra & Hg & Hfresh) & _).
  rewrite !count_cnt, Hg, cnt_app, (cnt_fresh p extra Hp Hpc Hfresh). lia.
Qed.

Lemma inFlight_pc (g g' : goroutine) : at_pc g = at_pc g' -> inFlight g = inFlight g'.
Proof. unfold inFlight. intros ->. reflexivity. Qed.

Lemma accounted_pc (g g' : goroutine) : at_pc g = at_pc g' -> accounted g = accounted g'.
Proof. unfold accounted. intros ->. reflexivity. Qed.

Lemma submitted_pc (g g' : goroutine) : at_pc g = at_pc g' -> submitted g = submitted g'.
Proof. unfold submitted. intros ->. reflexivity. Qed.

Lemma finished_pc (g g' : goroutine) : at_pc g = at_pc g' -> finished g = finished g'.
Proof. unfold finished. intros ->. reflexivity. Qed.

Lemma event_cases (e : event) : (forall i, e <> Run i) \/ exists i, e = Run i.
Proof.
  destruct e; try (left; intros; discriminate). right. eauto.
Qed.

Lemma balanced_boot (token : string) (chat : Z) (s : os.state) :
  balanced (boot token chat s).
Proof.
  split; [reflexivity |]. exists 0, 0. repeat split; try reflexivity; lia.
Qed.

Lemma balanced_deliver (e : event) (w : World) :
  balanced w -> balanced (deliver e w).
Proof.
  intros [Hpend (a & b & Ha & Hb & Hab & Hok & Herr)].
  destruct (event_cases e) as [He|[i ->]].
  { destruct (command_frame e w He) as (_ & Hstats & _).
    unfold balanced. rewrite Hstats.
    rewrite (count_command inFlight e w He eq_refl inFlight_pc).
    rewrite (count_command accounted e w He eq_refl accounted_pc).
    split; [exact Hpend |]. exists a, b. auto. }
  destruct (nth_error (goroutines w) i) as [g|] eqn:Hnth.
  2:{ rewrite schedule_idle by exact Hnth.
      split; [exact Hpend |]. exists a, b. auto. }
  pose proof (count_step inFlightAt i w g Hnth) as Hfl.
  pose proof (count_step accountedAt i w g Hnth) as Hacc.
  change (fun g => inFlightAt (at_pc g)) with inFlight in Hfl.
  change (fun g => accountedAt (at_pc g)) with accounted in Hacc.
  destruct (schedule_step_facts i w g Hnth) as (_ & Hstats & _).
  destruct (stepAt_frame (file g) (fname g) (at_pc g) w) as (_ & _ & _ & Hpc).
  cbv zeta in Hfl, Hacc, Hstats, Hpc.
  unfold balanced. rewrite Hstats.
  destruct (at_pc g) as [| |fpath tmp| | | |pending|];
    cbn [inFlightAt accountedAt] in Hfl, Hacc.
  - destruct Hpc as (Hnext & Hst & _). rewrite Hnext in *. rewrite Hst.
    cbn [one inFlightAt accountedAt DowloadsOk DownloadsErr DownloadsPending] in *. split.
    + rewrite Hpend, wrap32_succ. f_equal. lia.
    + exists a, b. repeat split; auto; lia.
  - destruct Hpc as (Hnext & Hst & _). rewrite Hst.
    destruct Hnext as [Hnext|(fpath & tmp & Hnext)]; rewrite Hnext in *;
      cbn [one inFlightAt accountedAt] in *;
      (split; [rewrite Hpend; f_equal; lia
              | exists a, b; repeat split; auto; lia]).
  - destruct Hpc as (Hnext & Hst & _). rewrite Hst.
    destruct Hnext as [Hnext|Hnext]; rewrite Hnext in *;
      cbn [one inFlightAt accountedAt] in *;
      (split; [rewrite Hpend; f_equal; lia
              | exists a, b; repeat split; auto; lia]).
  - destruct Hpc as (Hnext & Hst & _). rewrite Hnext in *. rewrite Hst.
    cbn [one inFlightAt accountedAt DowloadsOk DownloadsErr DownloadsPending] in *. split.
    + rewrite Hpend. f_equal. lia.
    + exists a, (b + 1). repeat split; auto; try lia.
      rewrite Herr. apply wrap32_succ.
  - destruct Hpc as (Hnext & Hst & _). rewrite Hnext in *. rewrite Hst.
    cbn [one inFlightAt accountedAt DowloadsOk DownloadsErr DownloadsPending] in *. split.
    + rewrite Hpend. f_equal. lia.
    + exists (a + 1), b. repeat split; auto; try lia.
      rewrite Hok. apply wrap32_succ.
  - destruct Hpc as (Hnext & Hst & _). rewrite Hnext in *. rewrite Hst.
    cbn [one inFlightAt accountedAt DowloadsOk DownloadsErr DownloadsPending] in *. split.
    + rewrite Hpend, wrap32_pred. f_equal. lia.
    + exists a, b. repeat split; auto; lia.
  - destruct Hpc as (Hnext & Hst & _). rewrite Hnext in *. rewrite Hst.
    cbn [one inFlightAt accountedAt] in *. split.
    + rewrite Hpend. f_equal. lia.
    + exists a, b. repeat split; auto; lia.
  - destruct Hpc as (Hnext & Hw). rewrite Hnext in *. rewrite Hw.
    cbn [one inFlightAt accountedAt] in *. split.
    + rewrite Hpend. f_equal. lia.
    + exists a, b. repeat split; auto; lia.
Qed.

Lemma run_cons (e : event) (es : list event) (w : World) :
  run (e :: es) w = run es (deliver e w).
Proof. reflexivity. Qed.

Lemma run_app (es es' : list event) (w : World) :
  run (es ++ es') w = run es' (run es w).
Proof.
  unfold run. apply fold_left_app.
Qed.

Lemma balanced_run (es : list event) :
  forall w, balanced w -> balanced (run es w).
Proof.
  induction es as [|e es IH]; intros w H; [exact H |].
  rewrite run_cons. apply IH, balanced_deliver, H.
Qed.

(** As long as fewer than 2^32 downloads were started, the counters are
    the numbers themselves. *)
Lemma balanced_exact (w : World) :
  balanced w ->
  Z.of_nat (List.length (goroutines w)) < 2 ^ 32 ->
  DownloadsPending (stats w) = count inFlight w
  /\ DowloadsOk (stats w) + DownloadsErr (stats w) = count accounted w
  /\ 0 <= DowloadsOk (stats w) /\ 0 <= DownloadsErr (stats w).
Proof.
  intros [Hpend (a & b & Ha & Hb & Hab & Hok & Herr)] Hlen.
  pose proof (cnt_le_length inFlight (goroutines w)) as H1.
  pose proof (cnt_le_length accounted (goroutines w)) as H2.
  rewrite !count_cnt in *.
  rewrite Hpend, Hok, Herr.
  rewrite (wrap32_small a), (wrap32_small b), (wrap32_small (Z.of_nat _)) by lia.
  lia.
Qed.



Lemma deliver_Run_length (i : nat) (w : World) :
  List.length (goroutines (deliver (Run i) w)) = List.length (goroutines w).
Proof.
  destruct (nth_error (goroutines w) i) as [g|] eqn:Hnth.
  - destruct (schedule_step_facts i w g Hnth) as (_ & _ & _ & _ & Hg).
    rewrite Hg. apply replace_length.
  - rewrite schedule_idle by exact Hnth. reflexivity.
Qed.



(** ** Progress notifications *)

(** [downloadFile] is the six steps of its goroutine. *)
Lemma downloadFile_six_steps (f : tele.File) (name : string) (w : World) :
  stepsFrom 6 f name Claim w = (Done, exec (downloadFile f name) w).
Proof.
  unfold downloadFile, downloadFileInternal.
  cbn [stepsFrom]. unfold stepAt at 1. run_monad.
  set (fpath := filepath.Join (os.Getwd (fs w)) name).
  set (tmp := fpath ++ ".tmp").
  unfold stepAt at 1. run_monad. fold fpath. fold tmp.
  destruct (tele.Download (fs w) f tmp) as [s1 [e|]].
  - run_monad. unfold stepAt. run_monad.
    unfold bind. destruct (report _ _) as [[] w2]. reflexivity.
  - run_monad. unfold stepAt at 1. run_monad.
    destruct (os.Rename s1 tmp fpath) as [s2 [e|]]; run_monad;
      unfold stepAt; run_monad;
      unfold bind; destruct (report _ _) as [[] w2]; reflexivity.
Qed.

Lemma cnt_all (p : goroutine -> bool) (l : list goroutine) :
  Forall (fun g => p g = true) l -> cnt p l = List.length l.
Proof.
  induction 1 as [|g l Hg Hl IH]; [reflexivity |].
  rewrite cnt_cons, Hg, IH. reflexivity.
Qed.

Lemma cnt_none (p : goroutine -> bool) (l : list goroutine) :
  Forall (fun g => p g = false) l -> cnt p l = 0%nat.
Proof.
  induction 1 as [|g l Hg Hl IH]; [reflexivity |].
  rewrite cnt_cons, Hg, IH. reflexivity.
Qed.

Lemma cnt_full (p : goroutine -> bool) (l : list goroutine) :
  cnt p l = List.length l ->
  forall i g, nth_error l i = Some g -> p g = true.
Proof.
  induction l as [|a l IH]; intros Hc [|i] g H; simpl in H; try discriminate.
  - inversion H; subst. rewrite cnt_cons in Hc.
    pose proof (cnt_le_length p l). simpl in Hc.
    destruct (p g); [reflexivity | simpl in Hc; lia].
  - rewrite cnt_cons in Hc. pose proof (cnt_le_length p l). simpl in Hc.
    apply (IH ltac:(destruct (p a); simpl in Hc; lia) i g H).
Qed.

Lemma notices_step (i : nat) (w : World) (g : goroutine) :
  nth_error (goroutines w) i = Some g ->
  finishedNotices (deliver (Run i) w)
  = (finishedNotices w
     + match at_pc g with
       | Report pending => one (pending =? 0)%Z
       | _ => 0
       end)%nat.
Proof.
  intro Hnth.
  destruct (schedule_step_facts i w g Hnth) as (_ & _ & Hsent & _).
  destruct (stepAt_frame (file g) (fname g) (at_pc g) w) as (_ & _ & _ & Hf).
  cbv zeta in Hsent, Hf. unfold finishedNotices in *. rewrite Hsent.
  destruct (at_pc g) as [| |fpath tmp| | | |pending|].
  - destruct Hf as (_ & _ & ->). lia.
  - destruct Hf as (_ & _ & ->). lia.
  - destruct Hf as (_ & _ & ->). lia.
  - destruct Hf as (_ & _ & ->). lia.
  - destruct Hf as (_ & _ & ->). lia.
  - destruct Hf as (_ & _ & ->). lia.
  - destruct Hf as (_ & _ & ->).
    rewrite noticesIn_app, reportMessages_notices. reflexivity.
  - destruct Hf as (_ & ->). lia.
Qed.

(** The chat is told that all downloads have finished at most once per
    finished download. *)
Lemma notices_le_finished (es : list event) :
  forall w,
    (finishedNotices w <= cnt finished (goroutines w))%nat ->
    (finishedNotices (run es w) <= cnt finished (goroutines (run es w)))%nat.
Proof.
  induction es as [|e es IH]; intros w H; [exact H |].
  rewrite run_cons. apply IH.
  destruct (event_cases e) as [Hcmd|[i ->]].
  { destruct (command_frame e w Hcmd) as (_ & _ & _ & _ & Hn).
    pose proof (count_command finished e w Hcmd eq_refl finished_pc) as Hc.
    rewrite !count_cnt in Hc. lia. }
  destruct (nth_error (goroutines w) i) as [g|] eqn:Hnth.
  2:{ rewrite schedule_idle by exact Hnth. exact H. }
  rewrite (notices_step i w g Hnth).
  pose proof (count_step finishedAt i w g Hnth) as Hc.
  change (fun g => finishedAt (at_pc g)) with finished in Hc.
  rewrite !count_cnt in Hc.
  destruct (stepAt_frame (file g) (fname g) (at_pc g) w) as (_ & _ & _ & Hf).
  cbv zeta in Hc, Hf.
  destruct (at_pc g) as [| |fpath tmp| | | |pending|];
    cbn [finishedAt one] in Hc; try lia.
  - destruct Hf as (Hnext & _). rewrite Hnext in Hc. cbn [finishedAt one] in Hc.
    destruct (pending =? 0); cbn [one]; lia.
  - destruct Hf as (Hnext & _). rewrite Hnext in Hc. cbn [finishedAt one] in Hc.
    lia.
Qed.

Lemma AddUint32_pred (c : Z) :
  1 <= c < 2 ^ 32 -> atomic.AddUint32 c atomic.allOnes = c - 1.
Proof.
  intro H. rewrite <- (wrap32_small c) at 1 by lia.
  rewrite wrap32_pred. apply wrap32_small. lia.
Qed.

Lemma deliver_length_le (e : event) (w : World) :
  (List.length (goroutines w) <= List.length (goroutines (deliver e w)))%nat.
Proof.
  destruct (event_cases e) as [Hcmd|[i ->]].
  - destruct (command_frame e w Hcmd) as (_ & _ & _ & (extra & Hg & _) & _).
    rewrite Hg, List.length_app. lia.
  - rewrite deliver_Run_length. lia.
Qed.

Lemma run_length_le (es : list event) :
  forall w, (List.length (goroutines w) <= List.length (goroutines (run es w)))%nat.
Proof.
  induction es as [|e es IH]; intro w; [reflexivity |].
  rewrite run_cons. pose proof (deliver_length_le e w). specialize (IH (deliver e w)).
  lia.
Qed.

Lemma draining_deliver (n : nat) (e : event) (w : World) :
  Z.of_nat n < 2 ^ 32 ->
  draining n w ->
  List.length (goroutines (deliver e w)) = n ->
  draining n (deliver e w).
Proof.
  intros Hn (Hlen & Hbal & Hsub & Hnote) Hlen'.
  assert (Hbal' : balanced (deliver e w)) by apply balanced_deliver, Hbal.
  unfold draining. split; [exact Hlen' |]. split; [exact Hbal' |].
  destruct (event_cases e) as [Hcmd|[i ->]].
  { destruct (command_frame e w Hcmd) as (_ & _ & _ & (extra & Hg & _) & Hnot).
    assert (Hextra : extra = []).
    { rewrite Hg, List.length_app in Hlen'. destruct extra; [reflexivity |].
      simpl in Hlen'. lia. }
    subst extra. rewrite app_nil_r in Hg.
    rewrite count_cnt, Hnot, Hg, <- count_cnt. auto. }
  destruct (nth_error (goroutines w) i) as [g|] eqn:Hnth.
  2:{ rewrite schedule_idle by exact Hnth. auto. }
  pose proof (cnt_full submitted (goroutines w) ltac:(lia) i g Hnth) as Hg.
  pose proof (count_step inFlightAt i w g Hnth) as Hfl.
  pose proof (count_step submittedAt i w g Hnth) as Hsb.
  pose proof (count_step lastOutAt i w g Hnth) as Hlo.
  change (fun g => inFlightAt (at_pc g)) with inFlight in Hfl.
  change (fun g => submittedAt (at_pc g)) with submitted in Hsb.
  pose proof (notices_step i w g Hnth) as Hnot.
  destruct (stepAt_frame (file g) (fname g) (at_pc g) w) as (_ & _ & _ & Hf).
  destruct (balanced_exact w Hbal ltac:(lia)) as (Hpend & _).
  cbv zeta in Hfl, Hsb, Hlo, Hf.
  rewrite !count_cnt in *. unfold submitted in Hg.
  set (c := cnt inFlight (goroutines w)) in *.
  set (c' := cnt inFlight (goroutines (deliver (Run i) w))) in *.
  set (r := cnt (fun g => lastOutAt (at_pc g)) (goroutines w)) in *.
  set (r' := cnt (fun g => lastOutAt (at_pc g)) (goroutines (deliver (Run i) w))) in *.
  set (s' := cnt submitted (goroutines (deliver (Run i) w))) in *.
  assert (Hgoal : forall next,
             fst (stepAt (file g) (fname g) (at_pc g) w) = next ->
             submittedAt next = true ->
             (one (lastOutAt (at_pc g)) + one (lastOutAt next) = 0
              /\ inFlightAt next = inFlightAt (at_pc g)
              /\ finishedNotices (deliver (Run i) w) = finishedNotices w)%nat ->
             s' = n
             /\ (finishedNotices (deliver (Run i) w) + r'
                 = one (Z.of_nat c' =? 0)%Z)%nat).
  { intros next Hnext Hs (Hl & Hi & Hno). rewrite Hnext in *.
    rewrite Hg, Hs in Hsb. rewrite Hi in Hfl.
    split; [lia |]. rewrite Hno.
    replace c' with c by lia. replace r' with r by lia. exact Hnote. }
  destruct (at_pc g) as [| |fpath tmp| | | |pending|];
    cbn [submittedAt inFlightAt lastOutAt one] in *; try discriminate.
  - destruct Hf as ([Hnext|(fpath & tmp & Hnext)] & _);
      apply (Hgoal _ Hnext); repeat split; try reflexivity; lia.
  - destruct Hf as ([Hnext|Hnext] & _);
      apply (Hgoal _ Hnext); repeat split; try reflexivity; lia.
  - destruct Hf as (Hnext & _).
    apply (Hgoal _ Hnext); repeat split; try reflexivity; lia.
  - destruct Hf as (Hnext & _).
    apply (Hgoal _ Hnext); repeat split; try reflexivity; lia.
  - (* the slot is released *)
    destruct Hf as (Hnext & _). clear Hgoal.
    pose proof (cnt_le_length inFlight (goroutines w)) as Hc. fold c in Hc.
    rewrite Hnext in *. cbn [submittedAt inFlightAt lastOutAt one] in *.
    rewrite Hpend in Hlo.
    rewrite AddUint32_pred in Hlo by lia.
    split; [lia |].
    replace (Z.of_nat c - 1) with (Z.of_nat c') in Hlo by lia.
    destruct (Z.eqb_spec (Z.of_nat c) 0) as [E|_]; [lia |].
    cbn [one] in Hnote.
    destruct (Z.of_nat c' =? 0); cbn [one] in *; lia.
  - (* the report goes out *)
    destruct Hf as (Hnext & _). clear Hgoal.
    rewrite Hnext in *. cbn [submittedAt inFlightAt lastOutAt one] in *.
    split; [lia |].
    replace c' with c by lia.
    destruct (pending =? 0); cbn [one] in *; lia.
  - destruct Hf as (Hnext & _).
    apply (Hgoal _ Hnext); repeat split; try reflexivity; lia.
Qed.

Lemma draining_run (n : nat) (es : list event) :
  Z.of_nat n < 2 ^ 32 ->
  forall w,
    draining n w ->
    List.length (goroutines (run es w)) = n ->
    draining n (run es w).
Proof.
  intro Hn. induction es as [|e es IH]; intros w Hd Hlen; [exact Hd |].
  rewrite run_cons in *.
  assert (Hmid : List.length (goroutines (deliver e w)) = n).
  { pose proof (deliver_length_le e w).
    pose proof (run_length_le es (deliver e w)).
    destruct Hd as (Hl & _). lia. }
  apply IH; [| exact Hlen].
  apply draining_deliver; assumption.
Qed.

(** When all downloads there are are in flight, the chat has not yet been
    told that all have finished. *)
Lemma draining_start (token : string) (chat : Z) (s0 : os.state)
  (es : list event) :
  let w := run es (boot token chat s0) in
  goroutines w <> [] ->
  Forall (fun g => inFlight g = true) (goroutines w) ->
  draining (List.length (goroutines w)) w.
Proof.
  intros w Hne Hall.
  assert (Hsome : forall (q : pc -> bool),
             (forall at_, inFlightAt at_ = true -> q at_ = false) ->
             cnt (fun g => q (at_pc g)) (goroutines w) = 0%nat).
  { intros q Hq. apply cnt_none.
    eapply Forall_impl; [| exact Hall]. intros g Hg. apply Hq. exact Hg. }
  pose proof (notices_le_finished es (boot token chat s0) (Nat.le_refl _)) as Hk.
  fold w in Hk.
  change (cnt finished) with (cnt (fun g => finishedAt (at_pc g))) in Hk.
  rewrite (Hsome finishedAt) in Hk by (intros []; simpl; congruence).
  split; [reflexivity |].
  split; [apply balanced_run, balanced_boot |].
  split.
  { apply cnt_all. eapply Forall_impl; [| exact Hall].
    intros g. unfold inFlight, submitted. destruct (at_pc g); simpl; congruence. }
  rewrite (Hsome lastOutAt) by (intros []; simpl; congruence).
  rewrite count_cnt, (cnt_all inFlight) by exact Hall.
  destruct (goroutines w); [congruence |]. simpl. lia.
Qed.

(** C6. The goroutine that releases its pending slot takes the new value
    of [DownloadsPending] along, and with that value it tells the chat
    ["All downloads finished"] if it is zero, ["Done. Pending downloads:
    n"] if it is not zero and a multiple of 5, and nothing otherwise.  So
    when seven downloads are in flight at the same time and all seven
    finish without a failure, the chat has been told exactly once that all
    downloads have finished, and the counters read 7, 0 and 0. *)
Theorem progress_notification :
  (forall f name w,
     fst (stepAt f name Release w)
     = Report (atomic.AddUint32 (DownloadsPending (stats w)) atomic.allOnes)
     /\ DownloadsPending (stats (snd (stepAt f name Release w)))
        = atomic.AddUint32 (DownloadsPending (stats w)) atomic.allOnes
     /\ sent (snd (stepAt f name Release w)) = sent w)
  /\ (forall f name pending w,
        fst (stepAt f name (Report pending) w) = Done
        /\ sent (snd (stepAt f name (Report pending) w))
           = (sent w ++
              if pending =? 0 then [allFinished]
              else if pending mod 5 =? 0
                   then [("Done. Pending downloads: " ++ fmt.d pending)%string]
                   else [])%list)
  /\ (forall token chat s0 es1 es2,
        let w1 := run es1 (boot token chat s0) in
        let w2 := run es2 w1 in
        List.length (goroutines w1) = 7%nat ->
        Forall (fun g => inFlight g = true) (goroutines w1) ->
        List.length (goroutines w2) = 7%nat ->
        Forall (fun g => finished g = true) (goroutines w2) ->
        DownloadsErr (stats w2) = 0 ->
        finishedNotices w2 = 1%nat
        /\ DowloadsOk (stats w2) = 7
        /\ DownloadsErr (stats w2) = 0
        /\ DownloadsPending (stats w2) = 0).
Proof.
  split; [| split].
  - intros f name w.
    destruct (stepAt_frame f name Release w) as (_ & _ & _ & Hn & Hs & Hm).
    rewrite Hn, Hs, Hm. auto.
  - intros f name pending w.
    destruct (stepAt_frame f name (Report pending) w) as (_ & _ & _ & Hn & _ & Hm).
    rewrite Hn, Hm. auto.
  - intros token chat s0 es1 es2 w1 w2 Hlen1 Hall1 Hlen2 Hall2 Herr.
    assert (Hne : goroutines w1 <> []).
    { intro E. rewrite E in Hlen1. discriminate. }
    pose proof (draining_start token chat s0 es1 Hne Hall1) as Hd.
    fold w1 in Hd. rewrite Hlen1 in Hd.
    apply (draining_run 7 es2 ltac:(reflexivity)) in Hd; [| exact Hlen2].
    fold w2 in Hd. destruct Hd as (_ & Hbal & _ & Hnote).
    destruct (balanced_exact w2 Hbal) as (Hpend & Hsum & _).
    { rewrite Hlen2. reflexivity. }
    assert (Hnone : forall (q : pc -> bool),
               q Done = false ->
               cnt (fun g => q (at_pc g)) (goroutines w2) = 0%nat).
    { intros q Hq. apply cnt_none.
      eapply Forall_impl; [| exact Hall2]. intros g.
      unfold finished. destruct (at_pc g); simpl; congruence. }
    rewrite (Hnone lastOutAt eq_refl) in Hnote.
    assert (Hfl : count inFlight w2 = 0).
    { rewrite count_cnt.
      change inFlight with (fun g => inFlightAt (at_pc g)).
      rewrite (Hnone inFlightAt eq_refl). reflexivity. }
    assert (Hacc : count accounted w2 = 7).
    { rewrite count_cnt, (cnt_all accounted).
      - rewrite Hlen2. reflexivity.
      - eapply Forall_impl; [| exact Hall2]. intros g.
        unfold finished, accounted. destruct (at_pc g); simpl; congruence. }
    rewrite Hfl in Hnote. cbn in Hnote.
    repeat split; try lia.
Qed.

Lemma progress_notification_witness :
  finishedNotices (run sevenFinish (run sevenArrive (boot "token" 0 demoFs)))
  = 1%nat.
Proof.
  apply (proj2 (proj2 progress_notification) "token" 0 demoFs
           sevenArrive sevenFinish).
  - vm_compute. reflexivity.
  - vm_compute. repeat constructor.
  - vm_compute. reflexivity.
  - vm_compute. repeat constructor.
  - vm_compute. reflexivity.
Defined.

(** Downloads that do not overlap are each the last one out: two
    documents, one after the other, make two notices. *)
Example notices_one_after_the_other :
  finishedNotices (run oneAfterTheOther (boot "token" 0 demoFs)) = 2%nat.
Proof. vm_compute. reflexivity. Qed.

(** ** Resetting the working directory *)

Lemma state_eta (s : os.state) : os.mkState (os.cwd s) (os.files s) = s.
Proof. destruct s; reflexivity. Qed.

Lemma MkdirAll_present (s : os.state) (r : os.path) :
  Forall (fun e => isName e = true) r ->
  (forall k, os.files s (firstn k r) = Some (os.Dir true)) ->
  os.MkdirAll s (os.render r) = (s, None).
Proof.
  intros Hr Hdirs. unfold os.MkdirAll, os.start.
  rewrite render_not_empty, render_abs, SplitSlash_render by exact Hr.
  pose proof (Hdirs 0%nat) as H0. simpl in H0.
  assert (Hmk : os.mkdirs (os.files s) [] ("" :: elems r) = (os.files s, None)).
  { cbn [os.mkdirs]. rewrite H0. cbn [String.eqb].
    destruct r as [|a l].
    - cbn [elems os.mkdirs]. rewrite H0. reflexivity.
    - apply mkdirs_existing; [exact Hr | exact Hdirs]. }
  rewrite Hmk. rewrite state_eta. reflexivity.
Qed.

Lemma Chdir_present (s : os.state) (r : os.path) :
  Forall (fun e => isName e = true) r ->
  (forall k, os.files s (firstn k r) = Some (os.Dir true)) ->
  os.Chdir s (os.render r) = (os.mkState r (os.files s), None).
Proof.
  intros Hr Hdirs. unfold os.Chdir.
  rewrite resolve_render by exact Hr.
  pose proof (Hdirs 0%nat) as H0. simpl in H0. rewrite H0.
  pose proof (Hdirs (List.length r)) as Hlast. rewrite firstn_all in Hlast.
  destruct r as [|a l].
  - rewrite H0. reflexivity.
  - rewrite walk_names_dirs by (try exact Hr; intros; apply Hdirs).
    simpl app. rewrite Hlast. reflexivity.
Qed.


Lemma deliver_extends (e : event) (w : World) :
  cfg (deliver e w) = cfg w
  /\ extends (os.files (fs w)) (os.files (fs (deliver e w))).
Proof.
  destruct (event_cases e) as [Hcmd|[i ->]].
  - destruct (command_frame e w Hcmd) as (Hc & _ & Hext & _). auto.
  - destruct (nth_error (goroutines w) i) as [g|] eqn:Hnth.
    + destruct (schedule_step_facts i w g Hnth) as (Hc & _ & _ & Hfs & _).
      destruct (stepAt_frame (file g) (fname g) (at_pc g) w) as (_ & _ & Hext & _).
      cbv zeta in Hfs, Hext. rewrite Hfs. auto.
    + rewrite schedule_idle by exact Hnth. auto using extends_refl.
Qed.



Lemma run_cfg (es : list event) : forall w, cfg (run es w) = cfg w.
Proof.
  induction es as [|e es IH]; intro w; [reflexivity |].
  rewrite run_cons, IH. apply deliver_extends.
Qed.

(** With the initial working directory there, [/cd -r] goes to it. *)
Lemma handleCd_reset (w : World) (r : os.path) :
  Forall (fun e => isName e = true) r ->
  InitialWorkingDir (cfg w) = os.render r ->
  (forall k, os.files (fs w) (firstn k r) = Some (os.Dir true)) ->
  fst (handleCd ["-r"] w) = None
  /\ cfg (exec (handleCd ["-r"]) w) = cfg w
  /\ fs (exec (handleCd ["-r"]) w) = os.mkState r (os.files (fs w)).
Proof.
  intros Hr Hroot Hdirs.
  unfold handleCd. run_monad.
  change (String.eqb "-r" "-r") with true. cbv iota.
  rewrite Hroot.
  unfold strings.HasPrefix. rewrite render_abs, prefix_refl. cbn [negb andb].
  rewrite MkdirAll_present by assumption. run_monad.
  rewrite Chdir_present by assumption. run_monad.
  auto.
Qed.


Lemma demoFs_sound : sound demoFs.
Proof.
  split; [repeat constructor |].
  intros [|[|k]]; reflexivity.
Qed.


(** * Further properties *)

(** ** [handleCd], case by case *)

(** The four ways through [handleCd] with one argument. *)
Lemma handleCd_cases (w : World) (arg : string) :
  let wd := target w arg in
  let r := handleCd [arg] w in
  cfg (snd r) = cfg w /\ stats (snd r) = stats w
  /\ goroutines (snd r) = goroutines w
  /\ ((filepath.IsAbs wd && negb (strings.HasPrefix wd (InitialWorkingDir (cfg w)))
       = true
       /\ fst r = Some errorOutside /\ fs (snd r) = fs w)
      \/ (filepath.IsAbs wd && negb (strings.HasPrefix wd (InitialWorkingDir (cfg w)))
          = false
          /\ ((exists e, os.MkdirAll (fs w) wd = (fs (snd r), Some e)
                         /\ fst r = Some e)
              \/ (exists s1 e, os.MkdirAll (fs w) wd = (s1, None)
                               /\ os.Chdir s1 wd = (fs (snd r), Some e)
                               /\ fst r = Some e)
              \/ (exists s1, os.MkdirAll (fs w) wd = (s1, None)
                             /\ os.Chdir s1 wd = (fs (snd r), None)
                             /\ fst r = None
                             /\ sent (snd r) = (sent w ++ ["done!"])%list)))).
Proof.
  intros wd r. subst r. unfold handleCd. run_monad.
  change (if String.eqb arg "-r" then InitialWorkingDir (cfg w) else arg) with wd.
  destruct (filepath.IsAbs wd && negb (strings.HasPrefix wd (InitialWorkingDir (cfg w)))).
  { run_monad. repeat split. left. auto. }
  run_monad.
  destruct (os.MkdirAll (fs w) wd) as [s1 [e1|]] eqn:Hmk.
  { run_monad. repeat split. right. split; [reflexivity |]. left. eauto. }
  run_monad.
  destruct (os.Chdir s1 wd) as [s2 [e2|]] eqn:Hch; run_monad; repeat split;
    right; (split; [reflexivity |]).
  - right. left. eauto.
  - right. right. eauto.
Qed.

(** X1. Without exactly one argument [handleCd] only answers with the
    usage line: the file system, the working directory, the counters, the
    configuration and the goroutines are as before. *)
Theorem handleCd_usage (args : list string) (w : World) :
  List.length args <> 1%nat ->
  fst (handleCd args w) = None
  /\ exec (handleCd args) w = withSent w (sent w ++ ["Usage: /cd [-r] <path>"]).
Proof.
  intro H. destruct args as [|a [|b args]]; [| simpl in H; congruence |];
    split; reflexivity.
Qed.

Lemma handleCd_usage_witness :
  exec (handleCd ["-r"; "sub"]) demo
  = withSent demo (sent demo ++ ["Usage: /cd [-r] <path>"]).
Proof.
  apply (handleCd_usage ["-r"; "sub"] demo). simpl. lia.
Defined.

Lemma handleCd_error_state (args : list string) (w : World) (e : error) :
  fst (handleCd args w) = Some e ->
  os.cwd (fs (exec (handleCd args) w)) = os.cwd (fs w)
  /\ extends (os.files (fs w)) (os.files (fs (exec (handleCd args) w))).
Proof.
  intro Herr.
  destruct args as [|arg [|b args]]; try discriminate Herr.
  unfold exec.
  destruct (handleCd_cases w arg) as (_ & _ & _ & Hc). cbv zeta in Hc.
  destruct Hc as [(_ & _ & Hfs)|(_ & [(e1 & Hmk & _)|[(s1 & e1 & Hmk & Hch & _)|(s1 & _ & _ & Hnone & _)]])].
  - rewrite Hfs. split; [reflexivity | apply extends_refl].
  - pose proof (MkdirAll_cwd (fs w) (target w arg)) as H1.
    pose proof (MkdirAll_extends (fs w) (target w arg)) as H2.
    rewrite Hmk in H1, H2. auto.
  - pose proof (MkdirAll_cwd (fs w) (target w arg)) as H1.
    pose proof (MkdirAll_extends (fs w) (target w arg)) as H2.
    rewrite Hmk in H1, H2.
    apply Chdir_failure in Hch. rewrite Hch. auto.
  - congruence.
Qed.



(** ** Where the working directory can go *)

Lemma firstn_removelast {A} (k : nat) (l : list A) :
  (k < List.length l)%nat -> firstn k (removelast l) = firstn k l.
Proof.
  intro H. rewrite removelast_firstn_len, firstn_firstn.
  f_equal. lia.
Qed.

Lemma removelast_shorter {A} (l : list A) :
  (List.length (removelast l) <= List.length l)%nat.
Proof.
  rewrite removelast_firstn_len, length_firstn. lia.
Qed.

(** Resolution only passes through directories that are there, and ends
    at a location made of proper names. *)
Lemma walk_approach (t : os.tree) (es : list string) :
  Forall (fun e => noSlash e = true) es ->
  forall cur q,
    approach t cur -> os.walk t cur es = Ok q -> approach t q.
Proof.
  induction 1 as [|e es He Hes IH]; intros cur q Hcur Hw.
  - simpl in Hw. inversion Hw; subst. exact Hcur.
  - simpl in Hw.
    destruct (t cur) as [[x|data]|] eqn:Ht; try discriminate.
    destruct (String.eqb e "") eqn:E0; [apply (IH cur); assumption |].
    destruct x; simpl in Hw; [| discriminate].
    unfold os.isDot, os.isDotDot in Hw.
    destruct (String.eqb e ".") eqn:E1; [apply (IH cur); assumption |].
    destruct Hcur as [Hnames Hdirs].
    destruct (String.eqb e "..") eqn:E2.
    + apply (IH (removelast cur)); [| exact Hw]. split.
      * apply Forall_removelast. exact Hnames.
      * intros k Hk. pose proof (removelast_shorter cur).
        rewrite firstn_removelast by lia. apply Hdirs. lia.
    + apply (IH (cur ++ [e])%list); [| exact Hw]. split.
      * apply Forall_app. split; [exact Hnames |].
        constructor; [| constructor].
        unfold isName. rewrite He, E0, E1, E2. reflexivity.
      * intros k Hk. rewrite List.length_app in Hk. simpl in Hk.
        destruct (Nat.eq_dec k (List.length cur)) as [->|Hne].
        -- rewrite firstn_app, firstn_all, Nat.sub_diag. simpl.
           rewrite app_nil_r. exact Ht.
        -- rewrite firstn_app.
           replace (k - List.length cur)%nat with 0%nat by lia.
           simpl. rewrite app_nil_r. apply Hdirs. lia.
Qed.

Lemma sound_approach (s : os.state) : sound s -> approach (os.files s) (os.cwd s).
Proof.
  intros [Hn Hd]. split; [exact Hn | intros; apply Hd].
Qed.

Lemma approach_sound (c : os.path) (t : os.tree) :
  approach t c -> t c = Some (os.Dir true) -> sound (os.mkState c t).
Proof.
  intros [Hn Hd] Hc. split; [exact Hn |]. intro k. simpl.
  destruct (Nat.lt_ge_cases k (List.length c)).
  - apply Hd. assumption.
  - rewrite firstn_all2 by assumption. exact Hc.
Qed.

Lemma sound_extends (c : os.path) (t t' : os.tree) :
  sound (os.mkState c t) -> extends t t' -> sound (os.mkState c t').
Proof.
  intros [Hn Hd] Hext. split; [exact Hn |]. intro k. apply Hext, Hd.
Qed.

(** Entering a directory keeps the process in a directory that is
    there. *)
Lemma Chdir_sound (s s' : os.state) (p : string) :
  sound s -> os.Chdir s p = (s', None) -> sound s'.
Proof.
  intros Hs. unfold os.Chdir, os.resolve.
  destruct (String.eqb p ""); [intro H; inversion H |].
  destruct (os.walk (os.files s) (os.start s p) (strings.SplitSlash p))
    as [q|e] eqn:Hw; [| intro H; inversion H].
  destruct (os.files s q) as [[[|]|data]|] eqn:Hq; intro H; inversion H; subst.
  apply approach_sound; [| exact Hq].
  apply (walk_approach _ _ (SplitSlash_noSlash p) _ _) in Hw; [exact Hw |].
  unfold os.start. destruct (filepath.IsAbs p).
  - split; [constructor | simpl; intros; lia].
  - apply sound_approach. exact Hs.
Qed.

Lemma state_files_sound (s s' : os.state) :
  sound s -> os.cwd s' = os.cwd s -> extends (os.files s) (os.files s') ->
  sound s'.
Proof.
  intros Hs Hc He. destruct s as [c t], s' as [c' t']. simpl in *. subst c'.
  eapply sound_extends; eassumption.
Qed.

Lemma stepAt_cwd (f : tele.File) (name : string) (at_ : pc) (w : World) :
  os.cwd (fs (snd (stepAt f name at_ w))) = os.cwd (fs w).
Proof.
  destruct at_ as [| |fpath tmp| | | |pending|]; unfold stepAt.
  - run_monad. reflexivity.
  - run_monad.
    set (tmp := filepath.Join (os.Getwd (fs w)) name ++ ".tmp").
    destruct (tele.Download (fs w) f tmp) as [s1 err] eqn:HD.
    apply Download_extends in HD as [Hc _].
    destruct err; run_monad; exact Hc.
  - run_monad.
    destruct (os.Rename (fs w) tmp fpath) as [s2 err] eqn:HR.
    apply Rename_extends in HR as [Hc _].
    destruct err; run_monad; exact Hc.
  - run_monad. reflexivity.
  - run_monad. reflexivity.
  - run_monad. reflexivity.
  - unfold bind. rewrite (surjective_pairing (report pending w)).
    rewrite report_sent. reflexivity.
  - reflexivity.
Qed.

(** Only [/cd] moves the process: every other event leaves the working
    directory where it is. *)
Lemma deliver_cwd (e : event) (w : World) :
  (forall args, e <> Cd args) ->
  os.cwd (fs (deliver e w)) = os.cwd (fs w).
Proof.
  intro Hcd.
  destruct e as [chat| |ReadDir|args|uptime|doc|p|v|i]; unfold deliver.
  - reflexivity.
  - reflexivity.
  - unfold handleLs. run_monad.
    destruct (ReadDir (os.Getwd (fs w))) as [files|err]; [| reflexivity].
    destruct (lsLoop_chunked files (lsHeader (os.Getwd (fs w))) w)
      as (msgs & final & Hloop & _).
    unfold lsHeader in Hloop. rewrite Hloop. reflexivity.
  - exfalso. apply (Hcd args). reflexivity.
  - reflexivity.
  - unfold handleOnDocument, spawn. run_monad.
    destruct (String.eqb (tele.FileName doc) ""); reflexivity.
  - reflexivity.
  - unfold handleOnVideo, spawn. run_monad.
    destruct (negb (String.eqb (tele.MIME v) "video/mp4")); reflexivity.
  - fold (deliver (Run i) w).
    destruct (nth_error (goroutines w) i) as [g|] eqn:Hnth.
    + destruct (schedule_step_facts i w g Hnth) as (_ & _ & _ & Hfs & _).
      cbv zeta in Hfs. rewrite Hfs. apply stepAt_cwd.
    + rewrite schedule_idle by exact Hnth. reflexivity.
Qed.

Lemma sound_deliver (e : event) (w : World) :
  sound (fs w) -> sound (fs (deliver e w)).
Proof.
  intro Hs.
  destruct (deliver_extends e w) as [_ Hext].
  destruct e as [chat| |ReadDir|args|uptime|doc|p|v|i];
    try (apply (state_files_sound (fs w));
         [exact Hs | apply deliver_cwd; intros; discriminate | exact Hext]).
  unfold deliver in *.
  destruct args as [|arg [|b args]];
    [apply (state_files_sound (fs w)); [exact Hs | reflexivity | exact Hext]
    | | apply (state_files_sound (fs w)); [exact Hs | reflexivity | exact Hext]].
  unfold exec in *.
  destruct (handleCd_cases w arg) as (_ & _ & _ & Hc). cbv zeta in Hc.
  assert (Hmk : forall s1 oe, os.MkdirAll (fs w) (target w arg) = (s1, oe) -> sound s1).
  { intros s1 oe Hmk.
    pose proof (MkdirAll_cwd (fs w) (target w arg)) as H1.
    pose proof (MkdirAll_extends (fs w) (target w arg)) as H2.
    rewrite Hmk in H1, H2. apply (state_files_sound (fs w)); assumption. }
  destruct Hc as [(_ & _ & Hfs)|(_ & [(e1 & H1 & _)|[(s1 & e1 & H1 & Hch & _)|(s1 & H1 & Hch & _)]])].
  - rewrite Hfs. exact Hs.
  - eapply Hmk. exact H1.
  - pose proof (Chdir_failure _ _ _ _ Hch) as E. rewrite E. eapply Hmk. exact H1.
  - eapply Chdir_sound; [| exact Hch]. eapply Hmk. exact H1.
Qed.

Lemma sound_run (es : list event) :
  forall w, sound (fs w) -> sound (fs (run es w)).
Proof.
  induction es as [|e es IH]; intros w H; [exact H |].
  rewrite run_cons. apply IH, sound_deliver, H.
Qed.

Lemma Stat_sound (s : os.state) :
  sound s -> os.Stat s (os.Getwd s) = Ok (os.Dir true).
Proof.
  intros [Hn Hd]. unfold os.Stat, os.Getwd.
  rewrite resolve_render by exact Hn.
  pose proof (Hd 0%nat) as H0. simpl in H0. rewrite H0.
  pose proof (Hd (List.length (os.cwd s))) as Hl. rewrite firstn_all in Hl.
  destruct (os.cwd s) as [|a l] eqn:E.
  - rewrite H0. reflexivity.
  - rewrite walk_names_dirs by (try exact Hn; intros; apply Hd).
    simpl app. rewrite Hl. reflexivity.
Qed.

(** X3. Whatever commands, attachments and goroutine steps have happened
    since a start in a directory that is there, the process stands in a
    directory that exists and may be searched (so [mustGetWd] has a
    directory to report), and [/pwd] answers with the path of that
    directory and changes nothing else. *)
Theorem working_directory_exists (token : string) (chat : Z) (s0 : os.state)
  (es : list event) :
  sound s0 ->
  let w := run es (boot token chat s0) in
  sound (fs w)
  /\ os.Stat (fs w) (os.Getwd (fs w)) = Ok (os.Dir true)
  /\ exec handlePwd w = withSent w (sent w ++ [os.Getwd (fs w)])
  /\ os.Stat (fs w) (last (sent (exec handlePwd w)) "") = Ok (os.Dir true).
Proof.
  intros Hs w.
  assert (Hw : sound (fs w)) by (apply sound_run; exact Hs).
  split; [exact Hw |].
  split; [apply Stat_sound; exact Hw |].
  split; [reflexivity |].
  unfold handlePwd. run_monad. rewrite last_last. apply Stat_sound. exact Hw.
Qed.

Lemma working_directory_exists_witness :
  os.Stat (fs (run [Cd ["relative/sub"]; Cd [".."]] (boot "token" 0 demoFs)))
    (os.Getwd (fs (run [Cd ["relative/sub"]; Cd [".."]] (boot "token" 0 demoFs))))
  = Ok (os.Dir true).
Proof.
  apply (working_directory_exists "token" 0 demoFs
           [Cd ["relative/sub"]; Cd [".."]] demoFs_sound).
Defined.


Lemma names_not_empty_string (arg : string) :
  Forall (fun e => isName e = true) (strings.SplitSlash arg) ->
  String.eqb arg "" = false.
Proof.
  intro H. destruct arg; [| reflexivity].
  simpl in H. inversion H as [|x l Hx Hl]. discriminate Hx.
Qed.



(** A [/cd] that succeeds on a relative path of proper names has gone down
    by exactly those names. *)
Lemma handleCd_relative_goes_down (w : World) (arg : string) :
  arg <> "-r" ->
  filepath.IsAbs arg = false ->
  Forall (fun e => isName e = true) (strings.SplitSlash arg) ->
  fst (handleCd [arg] w) = None ->
  os.cwd (fs (exec (handleCd [arg]) w))
  = (os.cwd (fs w) ++ strings.SplitSlash arg)%list.
Proof.
  intros Hr Hrel Hnames Hret.
  assert (Htarget : target w arg = arg).
  { unfold target. destruct (String.eqb_spec arg "-r"); congruence. }
  destruct (handleCd_cases w arg) as (_ & _ & _ & Hc). cbv zeta in Hc.
  rewrite Htarget in Hc. unfold exec.
  set (r := handleCd [arg] w) in *. clearbody r.
  destruct Hc as [(_ & He & _)|(_ & [(e1 & _ & He)|[(s1 & e1 & _ & _ & He)|(s1 & H1 & H2 & _)]])];
    try congruence.
  pose proof (MkdirAll_cwd (fs w) arg) as Hc1. rewrite H1 in Hc1. simpl in Hc1.
  unfold os.Chdir, os.resolve, os.start in H2.
  rewrite (names_not_empty_string arg Hnames), Hrel, Hc1 in H2.
  destruct (os.walk (os.files s1) (os.cwd (fs w)) (strings.SplitSlash arg))
    as [q|e] eqn:Hw; [| inversion H2].
  apply walk_names_ok in Hw; [| exact Hnames]. subst q.
  destruct (os.files s1 _) as [[[|]|]|]; inversion H2 as [Hfs].
  reflexivity.
Qed.

(** A [/cd] that succeeds on the rendering of a location has gone
    there. *)
Lemma handleCd_absolute_goes_there (w : World) (q : os.path) :
  Forall (fun e => isName e = true) q ->
  fst (handleCd [os.render q] w) = None ->
  os.cwd (fs (exec (handleCd [os.render q]) w)) = q.
Proof.
  intros Hq Hret.
  assert (Htarget : target w (os.render q) = os.render q) by reflexivity.
  destruct (handleCd_cases w (os.render q)) as (_ & _ & _ & Hc). cbv zeta in Hc.
  rewrite Htarget in Hc. unfold exec.
  set (r := handleCd [os.render q] w) in *. clearbody r.
  destruct Hc as [(_ & He & _)|(_ & [(e1 & _ & He)|[(s1 & e1 & _ & _ & He)|(s1 & H1 & H2 & _)]])];
    try congruence.
  unfold os.Chdir in H2.
  destruct (os.resolve s1 (os.render q)) as [q'|e] eqn:Hres; [| inversion H2].
  apply resolve_render_ok in Hres; [| exact Hq]. subst q'.
  destruct (os.files s1 q) as [[[|]|]|]; inversion H2 as [Hfs].
  reflexivity.
Qed.

Lemma under_refl (r : os.path) : under r r.
Proof. exists []. rewrite app_nil_r. reflexivity. Qed.

Lemma under_app (r p es : os.path) : under r p -> under r (p ++ es)%list.
Proof.
  intros [rest ->]. exists (rest ++ es)%list. rewrite app_assoc. reflexivity.
Qed.

(** X5. The confinement [handleCd] does keep: from a start in a directory
    that is there, as long as every [/cd] is the reset, a relative path of
    proper names (no [.], no [..], no doubled slash) or the path of a
    location below the initial working directory, the process stays in the
    initial working directory or below it, whatever else happens in
    between. *)
Theorem tame_commands_stay_inside (token : string) (chat : Z) (s0 : os.state)
  (es : list event) :
  sound s0 ->
  Forall (tame (os.cwd s0)) es ->
  under (os.cwd s0) (os.cwd (fs (run es (boot token chat s0)))).
Proof.
  intros Hs Htame.
  set (r := os.cwd s0) in *.
  assert (Hinv : forall w,
             (InitialWorkingDir (cfg w) = os.render r
              /\ (forall k, os.files (fs w) (firstn k r) = Some (os.Dir true))
              /\ under r (os.cwd (fs w))) ->
             InitialWorkingDir (cfg (run es w)) = os.render r
             /\ (forall k, os.files (fs (run es w)) (firstn k r) = Some (os.Dir true))
             /\ under r (os.cwd (fs (run es w)))).
  { destruct Hs as [Hr _].
    induction Htame as [|e es He Hes IH]; intros w Hw; [exact Hw |].
    rewrite run_cons. apply IH. destruct Hw as (Hroot & Hdirs & Hunder).
    destruct (deliver_extends e w) as [Hcfg Hext].
    split; [rewrite Hcfg; exact Hroot |].
    split; [intro k; apply Hext, Hdirs |].
    assert (Hother : (forall args, e <> Cd args) ->
                     under r (os.cwd (fs (deliver e w)))).
    { intro H. rewrite deliver_cwd by exact H. exact Hunder. }
    destruct e as [chat'| |ReadDir|args|uptime|doc|p|v|i];
      try (apply Hother; intros; discriminate).
    destruct args as [|arg [|b args]]; [exact Hunder | | exact Hunder].
    unfold deliver.
    destruct (fst (handleCd [arg] w)) as [e|] eqn:Hnone.
    { pose proof Hnone as He'. destruct (handleCd_error_state [arg] w e He') as (Hc & _).
      rewrite Hc. exact Hunder. }
    simpl in He. destruct He as [->|[(Hrel & Hnames)|(rest & Hnames & ->)]].
    - destruct (handleCd_reset w r Hr Hroot Hdirs) as (_ & _ & Hfs).
      rewrite Hfs. apply under_refl.
    - destruct (String.eqb_spec arg "-r") as [->|Hne].
      + destruct (handleCd_reset w r Hr Hroot Hdirs) as (_ & _ & Hfs).
        rewrite Hfs. apply under_refl.
      + rewrite handleCd_relative_goes_down by assumption.
        apply under_app. exact Hunder.
    - rewrite handleCd_absolute_goes_there by assumption.
      exists rest. reflexivity. }
  destruct (Hinv (boot token chat s0)) as (_ & _ & H); [| exact H].
  destruct Hs as [Hr Hd].
  split; [reflexivity |]. split; [exact Hd | apply under_refl].
Qed.

Lemma tame_demo :
  Forall (tame (os.cwd demoFs))
    [Cd ["relative/sub"]; Pwd; Cd ["/data/relative"]; Cd ["-r"]; Cd ["x"]].
Proof.
  apply Forall_cons.
  { right. left. split; [reflexivity | repeat constructor]. }
  apply Forall_cons; [exact I |].
  apply Forall_cons.
  { right. right. exists ["relative"]. split; [repeat constructor | reflexivity]. }
  apply Forall_cons; [left; reflexivity |].
  apply Forall_cons; [| constructor].
  right. left. split; [reflexivity | repeat constructor].
Qed.

Lemma tame_commands_stay_inside_witness :
  under (os.cwd demoFs)
    (os.cwd (fs (run [Cd ["relative/sub"]; Pwd; Cd ["/data/relative"];
                      Cd ["-r"]; Cd ["x"]] (boot "token" 0 demoFs)))).
Proof.
  apply (tame_commands_stay_inside "token" 0 demoFs _ demoFs_sound tame_demo).
Defined.

(** ** Where a download is stored *)













(** ** [downloadFile] from start to end *)

Lemma exec_bind {A B} (m : M A) (k : A -> M B) (w : World) :
  exec (bind m k) w = exec (k (fst (m w))) (snd (m w)).
Proof.
  unfold exec, bind. destruct (m w). reflexivity.
Qed.

(** X8. [downloadFile], run with nothing in between, leaves
    [DownloadsPending] as it found it (a [uint32]), adds one to exactly one
    of [DowloadsOk] and [DownloadsErr], and at the end tells the chat
    according to the value [DownloadsPending] had at the start: that all
    downloads have finished if it was zero, the progress line if it was a
    multiple of 5 other than zero, nothing otherwise. *)
Theorem downloadFile_alone (w : World) (f : tele.File) (name : string) :
  0 <= DownloadsPending (stats w) < 2 ^ 32 ->
  let p := DownloadsPending (stats w) in
  let w' := exec (downloadFile f name) w in
  DownloadsPending (stats w') = p
  /\ ((DowloadsOk (stats w') = atomic.AddUint32 (DowloadsOk (stats w)) 1
       /\ DownloadsErr (stats w') = DownloadsErr (stats w))
      \/ (DowloadsOk (stats w') = DowloadsOk (stats w)
          /\ DownloadsErr (stats w') = atomic.AddUint32 (DownloadsErr (stats w)) 1))
  /\ fs w' = fs (exec (downloadFileInternal f name) w)
  /\ sent w' = (sent (exec (downloadFileInternal f name) w)
                ++ if p =? 0 then [allFinished]
                   else if p mod 5 =? 0
                        then [("Done. Pending downloads: " ++ fmt.d p)%string]
                        else [])%list.
Proof.
  intros Hp p w'.
  set (w1 := mkWorld (cfg w)
               (mkStats (DowloadsOk (stats w)) (DownloadsErr (stats w))
                  (atomic.AddUint32 p 1))
               (fs w) (sent w) (logged w) (goroutines w)).
  set (w2 := exec (downloadFileInternal f name) w1).
  assert (Hback : atomic.AddUint32 (atomic.AddUint32 p 1) atomic.allOnes = p).
  { unfold atomic.AddUint32 at 2. fold (atomic.wrap32 (p + 1)).
    rewrite wrap32_pred. replace (p + 1 - 1) with p by lia.
    apply wrap32_small. exact Hp. }
  assert (Hw' : w' = snd (report p
                            (mkWorld (cfg w2)
                               (mkStats (DowloadsOk (stats w2))
                                  (DownloadsErr (stats w2)) p)
                               (fs w2) (sent w2) (logged w2) (goroutines w2)))).
  { unfold w', downloadFile. rewrite exec_bind.
    change (snd (AddUint32 Pending 1 w)) with w1.
    rewrite exec_bind. fold (exec (downloadFileInternal f name) w1). fold w2.
    rewrite exec_bind.
    assert (Hpend2 : DownloadsPending (stats w2) = atomic.AddUint32 p 1).
    { pose proof (downloadFileInternal_exec w1 f name) as H. cbv zeta in H.
      fold w2 in H. destruct H as (_ & _ & H).
      destruct (tele.Download _ _ _) as [s1 [e|]].
      - destruct H as [_ ->]. reflexivity.
      - destruct (os.Rename _ _ _) as [s2 [e|]]; destruct H as [_ ->]; reflexivity. }
    unfold AddUint32 at 1. run_monad. rewrite Hpend2, Hback. reflexivity. }
  rewrite Hw', report_sent. cbn [stats fs sent DowloadsOk DownloadsErr DownloadsPending].
  (* the world after the transfer, started from [w] or from [w1] *)
  pose proof (downloadFileInternal_exec w f name) as H0.
  pose proof (downloadFileInternal_exec w1 f name) as H1.
  cbv zeta in H0, H1. fold w2 in H1.
  destruct H0 as (_ & _ & H0). destruct H1 as (_ & _ & H1).
  change (fs w1) with (fs w) in H1.
  assert (Hsent : sent w2 = sent (exec (downloadFileInternal f name) w)).
  { unfold w2, w1, downloadFileInternal. run_monad.
    destruct (tele.Download (fs w) f _) as [s1 [e|]]; run_monad; [reflexivity |].
    destruct (os.Rename s1 _ _) as [s2 [e|]]; run_monad; reflexivity. }
  unfold reportMessages. rewrite Hsent.
  destruct (tele.Download (fs w) f _) as [s1 [e|]].
  - destruct H0 as [F0 S0]. destruct H1 as [F1 S1].
    rewrite S1, F1, F0. cbn. auto.
  - destruct (os.Rename s1 _ _) as [s2 [e|]];
      destruct H0 as [F0 S0]; destruct H1 as [F1 S1];
      rewrite S1, F1, F0; cbn; auto.
Qed.

Lemma downloadFile_alone_witness :
  sent (exec (downloadFile (tele.mkFile "AQAD" (tele.Complete "bytes")) "x.bin")
          demo)
  = [allFinished].
Proof.
  apply (downloadFile_alone demo (tele.mkFile "AQAD" (tele.Complete "bytes"))
           "x.bin").
  cbn. lia.
Defined.

(** ** Videos *)

(** X9. A video is always submitted, under its unique identifier followed
    by [".mp4"] whatever its MIME type is; a MIME type other than
    ["video/mp4"] only makes the handler send a warning first.  The handler
    returns no error and touches neither files nor counters. *)
Theorem handleOnVideo_accepts (v : tele.Video) (w : World) :
  let w' := exec (handleOnVideo v) w in
  fst (handleOnVideo v w) = None
  /\ goroutines w'
     = (goroutines w
        ++ [mkGoroutine (tele.VideoFile v)
              (tele.UniqueID (tele.VideoFile v) ++ ".mp4") Claim])%list
  /\ fs w' = fs w /\ stats w' = stats w
  /\ (tele.MIME v = "video/mp4" -> sent w' = sent w)
  /\ (tele.MIME v <> "video/mp4" ->
      sent w' = (sent w ++ [("Unsupported video format: " ++ tele.MIME v
                             ++ ", wants 'video/mp4'")%string])%list).
Proof.
  unfold handleOnVideo, spawn. run_monad.
  destruct (String.eqb_spec (tele.MIME v) "video/mp4") as [E|E]; cbn [negb];
    run_monad; repeat split; auto; intro H; congruence.
Qed.

Lemma handleOnVideo_accepts_witness :
  sent (exec (handleOnVideo
                (tele.mkVideo (tele.mkFile "AQAD" (tele.Complete "bytes"))
                   "video/webm")) demo)
  = (sent demo ++ ["Unsupported video format: video/webm, wants 'video/mp4'"])%list.
Proof.
  apply (handleOnVideo_accepts
           (tele.mkVideo (tele.mkFile "AQAD" (tele.Complete "bytes")) "video/webm")
           demo).
  discriminate.
Defined.

(** ** [/stats] *)



(** ** The result counters only grow *)

Lemma result_counters_step (e : event) (w : World) :
  balanced w ->
  Z.of_nat (List.length (goroutines (deliver e w))) < 2 ^ 32 ->
  DowloadsOk (stats w) <= DowloadsOk (stats (deliver e w))
  /\ DownloadsErr (stats w) <= DownloadsErr (stats (deliver e w)).
Proof.
  intros Hbal Hlen'.
  pose proof (deliver_length_le e w) as Hle.
  destruct (balanced_exact w Hbal ltac:(lia)) as (_ & Hsum & Hok & Herr).
  destruct (balanced_exact _ (balanced_deliver e w Hbal) Hlen')
    as (_ & Hsum' & Hok' & Herr').
  destruct (event_cases e) as [Hcmd|[i ->]].
  { destruct (command_frame e w Hcmd) as (_ & Hstats & _).
    rewrite Hstats. lia. }
  destruct (nth_error (goroutines w) i) as [g|] eqn:Hnth.
  2:{ rewrite schedule_idle by exact Hnth. lia. }
  destruct (schedule_step_facts i w g Hnth) as (_ & Hstats & _).
  destruct (stepAt_frame (file g) (fname g) (at_pc g) w) as (_ & _ & _ & Hf).
  pose proof (count_step accountedAt i w g Hnth) as Hacc.
  change (fun g => accountedAt (at_pc g)) with accounted in Hacc.
  pose proof (cnt_le_length accounted (goroutines (deliver (Run i) w))) as Hb.
  cbv zeta in Hstats, Hf, Hacc. rewrite Hstats in *.
  rewrite !count_cnt in *.
  destruct (at_pc g) as [| |fpath tmp| | | |pending|].
  - destruct Hf as (_ & -> & _). simpl. lia.
  - destruct Hf as (_ & -> & _). lia.
  - destruct Hf as (_ & -> & _). lia.
  - destruct Hf as (Hnext & Hst & _). rewrite Hnext in Hacc. rewrite Hst in *.
    cbn [accountedAt one DowloadsOk DownloadsErr] in *.
    rewrite AddUint32_succ in * by lia. lia.
  - destruct Hf as (Hnext & Hst & _). rewrite Hnext in Hacc. rewrite Hst in *.
    cbn [accountedAt one DowloadsOk DownloadsErr] in *.
    rewrite AddUint32_succ in * by lia. lia.
  - destruct Hf as (_ & -> & _). simpl. lia.
  - destruct Hf as (_ & -> & _). lia.
  - destruct Hf as (_ & ->). lia.
Qed.

(** X11. As long as fewer than 2^32 downloads were started, neither result
    counter ever goes down, and between two states the two counters
    together grow by the number of downloads accounted in between. *)
Theorem result_counters_grow (token : string) (chat : Z) (s0 : os.state)
  (es1 es2 : list event) :
  let w1 := run es1 (boot token chat s0) in
  let w2 := run es2 w1 in
  Z.of_nat (List.length (goroutines w2)) < 2 ^ 32 ->
  DowloadsOk (stats w1) <= DowloadsOk (stats w2)
  /\ DownloadsErr (stats w1) <= DownloadsErr (stats w2)
  /\ (DowloadsOk (stats w2) + DownloadsErr (stats w2))
     - (DowloadsOk (stats w1) + DownloadsErr (stats w1))
     = count accounted w2 - count accounted w1.
Proof.
  intros w1 w2 Hlen.
  assert (Hbal1 : balanced w1) by apply balanced_run, balanced_boot.
  assert (Hmono : forall es w,
             balanced w ->
             Z.of_nat (List.length (goroutines (run es w))) < 2 ^ 32 ->
             DowloadsOk (stats w) <= DowloadsOk (stats (run es w))
             /\ DownloadsErr (stats w) <= DownloadsErr (stats (run es w))).
  { clear. induction es as [|e es IH]; intros w Hbal Hlen; [simpl; lia |].
    rewrite run_cons in *.
    pose proof (run_length_le es (deliver e w)) as Hle.
    destruct (result_counters_step e w Hbal ltac:(lia)) as [H1 H2].
    destruct (IH (deliver e w) (balanced_deliver e w Hbal) Hlen) as [H3 H4].
    lia. }
  destruct (Hmono es2 w1 Hbal1 Hlen) as [Hok Herr].
  pose proof (run_length_le es2 w1) as Hle. fold w2 in Hle.
  destruct (balanced_exact w1 Hbal1 ltac:(lia)) as (_ & Hs1 & _).
  destruct (balanced_exact w2 (balanced_run es2 w1 Hbal1) Hlen) as (_ & Hs2 & _).
  repeat split; try assumption. lia.
Qed.

Lemma result_counters_grow_witness :
  DowloadsOk (stats (run sevenArrive (boot "token" 0 demoFs)))
  <= DowloadsOk (stats (run sevenFinish (run sevenArrive (boot "token" 0 demoFs)))).
Proof.
  apply (result_counters_grow "token" 0 demoFs sevenArrive sevenFinish).
  vm_compute. reflexivity.
Defined.

(** X12. The chat is told that all downloads have finished at most once
    per finished download; in particular not before the first download
    has finished. *)
Theorem notices_bounded (token : string) (chat : Z) (s0 : os.state)
  (es : list event) :
  let w := run es (boot token chat s0) in
  Z.of_nat (finishedNotices w) <= count finished w
  /\ (count finished w = 0 -> ~ In allFinished (sent w)).
Proof.
  intro w.
  pose proof (notices_le_finished es (boot token chat s0) (Nat.le_refl _)) as H.
  fold w in H. rewrite count_cnt.
  split; [lia |].
  intros Hz Hin.
  assert (Hpos : (0 < finishedNotices w)%nat).
  { unfold finishedNotices, noticesIn.
    assert (Hf : In allFinished (filter (String.eqb allFinished) (sent w))).
    { apply filter_In. split; [exact Hin | apply String.eqb_refl]. }
    destruct (filter (String.eqb allFinished) (sent w)); [destruct Hf | simpl; lia]. }
  lia.
Qed.

(** X13. Nothing that happens after the start changes the configuration:
    the initial working directory stays the directory the process started
    in, the token and the chat id stay what they were. *)
Theorem configuration_is_fixed (token : string) (chat : Z) (s0 : os.state)
  (es : list event) :
  cfg (run es (boot token chat s0)) = mkCfg (os.Getwd s0) token chat.
Proof.
  rewrite run_cfg. reflexivity.
Qed.

Lemma notices_bounded_witness :
  ~ In allFinished (sent (run sevenArrive (boot "token" 0 demoFs))).
Proof.
  apply (notices_bounded "token" 0 demoFs sevenArrive).
  vm_compute. reflexivity.
Defined.

(** ** More on the directory listing *)

Lemma Chunked_count (buf : string) (es msgs : list string) :
  Chunked buf es msgs ->
  (1 <= List.length msgs <= 1 + List.length es)%nat.
Proof.
  induction 1; simpl in *; lia.
Qed.

Lemma Chunked_not_empty (buf : string) (es msgs : list string) :
  Chunked buf es msgs ->
  buf <> "" -> Forall (fun e => e <> "") es ->
  Forall (fun m => m <> "") msgs.
Proof.
  induction 1 as [buf | buf e rest msgs Hge Hch IH | buf e rest msgs Hlt Hch IH];
    intros Hbuf Hes.
  - repeat constructor. exact Hbuf.
  - inversion Hes; subst. constructor; [exact Hbuf |]. apply IH; assumption.
  - inversion Hes; subst. apply IH; [| assumption].
    destruct buf; [congruence | discriminate].
Qed.

(** X14. [handleLs] on a directory that cannot be read returns the error
    and sends nothing.  On a directory with [n] entries it sends at least
    one and at most [n + 1] messages, none of them empty, and returns no
    error; in both cases nothing but the chat changes. *)
Theorem handleLs_messages (ReadDir : string -> list os.FileInfo + error)
  (w : World) :
  match ReadDir (os.Getwd (fs w)) with
  | inr err =>
      fst (handleLs ReadDir w) = Some err /\ exec (handleLs ReadDir) w = w
  | inl files =>
      fst (handleLs ReadDir w) = None
      /\ exists msgs,
           exec (handleLs ReadDir) w = withSent w (sent w ++ msgs)
           /\ (1 <= List.length msgs <= 1 + List.length files)%nat
           /\ Forall (fun m => m <> "") msgs
  end.
Proof.
  destruct (ReadDir (os.Getwd (fs w))) as [files|err] eqn:Hread.
  - destruct (lsLoop_chunked files (lsHeader (os.Getwd (fs w))) w)
      as (msgs & final & Hrun & Hch).
    unfold lsHeader in Hrun.
    split.
    + unfold handleLs. run_monad. rewrite Hread, Hrun. reflexivity.
    + exists (msgs ++ [final])%list. split; [| split].
      * unfold handleLs. run_monad. rewrite Hread, Hrun.
        unfold withSent. cbn [cfg stats fs sent logged goroutines snd].
        rewrite <- app_assoc. reflexivity.
      * pose proof (Chunked_count _ _ _ Hch) as H.
        rewrite length_map in H. exact H.
      * apply (Chunked_not_empty _ _ _ Hch).
        -- discriminate.
        -- apply Forall_forall. intros x Hx.
           apply in_map_iff in Hx as (file & <- & _).
           destruct (otherStart_entryLine file) as (c & r & -> & _). discriminate.
  - unfold handleLs. run_monad. rewrite Hread. split; reflexivity.
Qed.

(** ** The columns of a listing line *)

Lemma countFrom_ascii (s : string) :
  allAscii s = true -> utf8.countFrom 0 s = String.length s.
Proof.
  induction s as [|c s IH]; intro H; [reflexivity |].
  simpl in H. apply andb_true_iff in H as [Hc Hs].
  simpl. unfold utf8.runeWidth, utf8.lead. rewrite Hc. simpl.
  rewrite IH by exact Hs. reflexivity.
Qed.

Lemma spaces_length (n : nat) : String.length (strings.spaces n) = n.
Proof.
  induction n as [|n IH]; simpl; congruence.
Qed.

(** X15. For a name whose bytes are all below 128 the name column of a
    listing line is the name padded with spaces to 50 bytes, and a longer
    name is not cut: the line is the type letter, a space, the name, the
    padding, [": "], the size and a newline, and it is 5 bytes longer than
    the larger of 50 and the length of the name, plus the size. *)
Theorem entryLine_columns (file : os.FileInfo) :
  allAscii (os.Name file) = true ->
  entryLine file
  = (if os.IsDir file then "d" else "-") ++ " " ++ os.Name file
    ++ strings.spaces (50 - String.length (os.Name file)) ++ ": "
    ++ humanReadableSize (os.Size file) ++ nl
  /\ len (fmt.s_left 50 (os.Name file)) = Z.max 50 (len (os.Name file))
  /\ len (entryLine file)
     = 5 + Z.max 50 (len (os.Name file)) + len (humanReadableSize (os.Size file)).
Proof.
  intro Hascii.
  assert (Hleft : fmt.s_left 50 (os.Name file)
                  = os.Name file
                    ++ strings.spaces (50 - String.length (os.Name file))).
  { unfold fmt.s_left, utf8.RuneCountInString.
    rewrite countFrom_ascii by exact Hascii. reflexivity. }
  assert (Hlen : len (fmt.s_left 50 (os.Name file)) = Z.max 50 (len (os.Name file))).
  { rewrite Hleft, len_app. unfold len. rewrite spaces_length. lia. }
  split; [| split; [exact Hlen |]].
  - unfold entryLine, fmt.c. rewrite Hleft, strapp_assoc.
    destruct (os.IsDir file); reflexivity.
  - unfold entryLine, fmt.c. rewrite !len_app, Hlen.
    change (len nl) with 1. change (len ": ") with 2. change (len " ") with 1.
    destruct (os.IsDir file); change (len (String _ "")) with 1; lia.
Qed.

Lemma entryLine_columns_witness :
  len (entryLine (os.mkFileInfo "a.txt" false 5)) = 58.
Proof.
  destruct (entryLine_columns (os.mkFileInfo "a.txt" false 5) eq_refl)
    as (_ & _ & H).
  rewrite H. reflexivity.
Defined.

(** ** How much the size rounds away *)

(** X16. For a size of at least zero the number shown is the size in the
    unit shown, rounded down: it differs from the size by less than one
    unit.  In [B], [KB] and [MB] the number is below 1024, and in [KB],
    [MB] and [GB] it is at least 1. *)
Theorem humanReadableSize_rounds_down (size : Z) :
  0 <= size ->
  exists n scale unit,
    In (scale, unit)
       [(1, " B"); (1024, " KB"); (1024 ^ 2, " MB"); (1024 ^ 3, " GB")]
    /\ humanReadableSize size = fmt.d n ++ unit
    /\ n * scale <= size < (n + 1) * scale
    /\ (unit <> " GB" -> n < 1024)
    /\ (unit <> " B" -> 1 <= n).
Proof.
  intro H. unfold humanReadableSize.
  change (1024 ^ 2) with (1024 * 1024).
  change (1024 ^ 3) with (1024 * 1024 * 1024).
  destruct (Z.ltb_spec size 1024).
  { exists size, 1, " B". simpl. repeat split; auto; try lia. congruence. }
  destruct (Z.ltb_spec size (1024 * 1024)).
  { exists (size ÷ 1024), 1024, " KB".
    rewrite Z.quot_div_nonneg by lia.
    pose proof (Z.div_mod size 1024 ltac:(lia)).
    pose proof (Z.mod_pos_bound size 1024 ltac:(lia)).
    simpl In. repeat split; auto; try lia;
      intros _; first [apply Z.div_lt_upper_bound; lia
                      | apply Z.div_le_lower_bound; lia]. }
  destruct (Z.ltb_spec size (1024 * 1024 * 1024)).
  { exists (size ÷ 1024 ÷ 1024), (1024 * 1024), " MB".
    rewrite (quot_twice size) by lia.
    pose proof (Z.div_mod size (1024 * 1024) ltac:(lia)).
    pose proof (Z.mod_pos_bound size (1024 * 1024) ltac:(lia)).
    simpl In. repeat split; auto 6; try lia;
      intros _; first [apply Z.div_lt_upper_bound; lia
                      | apply Z.div_le_lower_bound; lia]. }
  exists (size ÷ 1024 ÷ 1024 ÷ 1024), (1024 * 1024 * 1024), " GB".
  rewrite (quot_thrice size) by lia.
  pose proof (Z.div_mod size (1024 * 1024 * 1024) ltac:(lia)).
  pose proof (Z.mod_pos_bound size (1024 * 1024 * 1024) ltac:(lia)).
  simpl In. repeat split; auto 6; try lia; try congruence;
    intros _; apply Z.div_le_lower_bound; lia.
Qed.

Lemma humanReadableSize_rounds_down_witness :
  exists n scale unit,
    humanReadableSize 1536 = fmt.d n ++ unit
    /\ n * scale <= 1536 < (n + 1) * scale.
Proof.
  destruct (humanReadableSize_rounds_down 1536 ltac:(lia))
    as (n & scale & unit & _ & H1 & H2 & _).
  exists n, scale, unit. split; assumption.
Defined.

(** ** Startup *)










(** ** The second program *)

(** X19. The second program's [initCfg] starts exactly when destination
    and token are set and the chat id is not set or a decimal [int64]; the
    destination is taken as it is, and all three variables read as empty
    afterwards. *)
Theorem v4_initCfg_starts (e : env) :
  ((exists c e', v4.initCfgFrom e = Started c e')
   <-> e "TELEGRAM_DEST" <> "" /\ e "TELEGRAM_TOKEN" <> ""
       /\ (e "TELEGRAM_CHATID" = ""
           \/ strconv.ParseInt (e "TELEGRAM_CHATID") <> None))
  /\ forall c e',
       v4.initCfgFrom e = Started c e' ->
       InitialWorkingDir c = e "TELEGRAM_DEST"
       /\ TelegramToken c = e "TELEGRAM_TOKEN"
       /\ e' "TELEGRAM_DEST" = "" /\ e' "TELEGRAM_TOKEN" = ""
       /\ e' "TELEGRAM_CHATID" = "".
Proof.
  unfold v4.initCfgFrom.
  change (Setenv e "TELEGRAM_DEST" "" "TELEGRAM_TOKEN") with (e "TELEGRAM_TOKEN").
  change (Setenv (Setenv e "TELEGRAM_DEST" "") "TELEGRAM_TOKEN" "" "TELEGRAM_CHATID")
    with (e "TELEGRAM_CHATID").
  destruct (String.eqb_spec (e "TELEGRAM_DEST") "") as [Hd|Hd].
  { split.
    - split; [intros (c & e' & H); discriminate | intros [H _]; congruence].
    - intros c e' H. discriminate. }
  destruct (String.eqb_spec (e "TELEGRAM_TOKEN") "") as [Ht|Ht].
  { split.
    - split; [intros (c & e' & H); discriminate | intros (_ & H & _); congruence].
    - intros c e' H. discriminate. }
  destruct (String.eqb_spec (e "TELEGRAM_CHATID") "") as [Hc|Hc]; cbn [negb].
  { split.
    - split; [auto | eauto].
    - intros c e' H. inversion H; subst. cbn. auto. }
  destruct (strconv.ParseInt (e "TELEGRAM_CHATID")) as [n|] eqn:Hp.
  - split.
    + split; [intros _; repeat split; auto; right; discriminate | eauto].
    + intros c e' H. inversion H; subst. cbn. auto.
  - split.
    + split; [intros (c & e' & H); discriminate |].
      intros (_ & _ & [H|H]); congruence.
    + intros c e' H. discriminate.
Qed.

Lemma v4_initCfg_starts_witness :
  exists c e', v4.initCfgFrom (Setenv demoEnv "TELEGRAM_DEST" "/data")
               = Started c e'.
Proof.
  apply (proj1 (v4_initCfg_starts (Setenv demoEnv "TELEGRAM_DEST" "/data"))).
  split; [discriminate | split; [discriminate | right; discriminate]].
Defined.

(** X20. When the process stands in the configured destination, the
    second program's [downloadFileInternal] does to the files and the
    counters what the first program's does; it only tells the chat first
    that the download is enqueued. *)
Theorem v4_download_agrees (w : World) (f : tele.File) (name : string) :
  os.Getwd (fs w) = InitialWorkingDir (cfg w) ->
  let w3 := exec (downloadFileInternal f name) w in
  let w4 := exec (v4.downloadFileInternal f name) w in
  fs w4 = fs w3 /\ stats w4 = stats w3 /\ cfg w4 = cfg w3
  /\ goroutines w4 = goroutines w3
  /\ exists rest,
       sent w3 = (sent w ++ rest)%list
       /\ sent w4 = (sent w ++ [("Enqueued: " ++ name ++ nl)%string] ++ rest)%list.
Proof.
  intros Hwd w3 w4. subst w3 w4.
  unfold downloadFileInternal, v4.downloadFileInternal. run_monad.
  rewrite Hwd.
  set (fpath := filepath.Join (InitialWorkingDir (cfg w)) name).
  destruct (tele.Download (fs w) f (fpath ++ ".tmp")) as [s1 [e|]]; run_monad.
  { repeat split; auto. eexists. split; [reflexivity |].
    rewrite <- !app_assoc. reflexivity. }
  destruct (os.Rename s1 (fpath ++ ".tmp") fpath) as [s2 [e|]]; run_monad.
  - repeat split; auto. eexists. split; [reflexivity |].
    rewrite <- !app_assoc. reflexivity.
  - repeat split; auto. exists []. rewrite app_nil_r. split; reflexivity.
Qed.

Lemma v4_download_agrees_witness :
  fs (exec (v4.downloadFileInternal
              (tele.mkFile "AQAD" (tele.Complete "bytes")) "x.bin") demo)
  = fs (exec (downloadFileInternal
                (tele.mkFile "AQAD" (tele.Complete "bytes")) "x.bin") demo).
Proof.
  apply (v4_download_agrees demo (tele.mkFile "AQAD" (tele.Complete "bytes"))
           "x.bin").
  reflexivity.
Defined.

(** ** Downloads that fail, downloads that overlap *)











